(** * Lossless codecs of [compression/lossless.py]

    A shallow embedding of the four codecs of the module (run-length
    encoding, Huffman coding, Golomb coding and LZW) together with the
    part of the Python runtime they rely on, and the properties of the
    natural-language specification that can be stated over it. *)

From Stdlib Require Import ZArith QArith Qpower Lia String Ascii.
From stdpp Require Import base list gmap numbers.

Local Open Scope N_scope.

(** ** Python values

    A Python [str] is a sequence of Unicode code points.  A character is
    its code point, a string the list of its characters; [chr] and [ord]
    are then the identity. *)

Abbreviation char := N (only parsing).
Abbreviation str := (list N) (only parsing).

(** Transcription of a literal of the source into its code points. *)
Definition lit (s : string) : str :=
  map N_of_ascii (list_ascii_of_string s).

(** The exceptions the modelled code can raise. *)
Inductive exn := IndexError | KeyError | ValueError | ZeroDivisionError.

Inductive outcome (A : Type) :=
| Ok (a : A)
| Raise (e : exn).
Arguments Ok {A} a.
Arguments Raise {A} e.

(** Sequencing: an exception ends the computation.  The instances give
    [outcome] the notation [x ← r; k]. *)
#[export] Instance outcome_ret : MRet outcome := @Ok.
#[export] Instance outcome_bind : MBind outcome := λ A B k r,
  match r with
  | Ok a => k a
  | Raise e => Raise e
  end.

Definition raises {A} (r : outcome A) : Prop := ∃ e, r = Raise e.


(** [str(n)] for a non-negative integer: its decimal digits, most
    significant first, no leading zero.  The loop runs on fuel; a number
    has no more decimal digits than binary ones. *)
Fixpoint str_of_int_loop (fuel : nat) (n : N) (acc : str) : str :=
  let acc' := (48 + n mod 10) :: acc in
  match fuel with
  | O => acc'
  | S fuel' => if n <? 10 then acc' else str_of_int_loop fuel' (n / 10) acc'
  end.

Definition str_of_int (n : N) : str :=
  str_of_int_loop (N.to_nat (N.log2 n)) n [].

(** The Unicode tables behind [str.isdigit] and [int]: which characters
    are digits, and the value of the decimal ones.  On the ASCII range the
    digits are ['0'] to ['9']; beyond it only the tables know (['²'] is a
    digit for [isdigit] and has no decimal value for [int]). *)
Definition ascii_digit (c : char) : bool := (48 <=? c) && (c <=? 57).

Class UnicodeTables := {
  isdigit : char → bool;
  digit_value : char → option N;
  isdigit_ascii : ∀ c, c < 128 → isdigit c = ascii_digit c;
  digit_value_ascii : ∀ c, ascii_digit c = true → digit_value c = Some (c - 48)
}.

(** The tables cut down to ASCII: enough to run the model. *)
#[export] Instance ascii_tables : UnicodeTables := {|
  isdigit := ascii_digit;
  digit_value c := if ascii_digit c then Some (c - 48) else None;
  isdigit_ascii := λ c _, eq_refl;
  digit_value_ascii := λ c H,
    @eq_ind_r bool true
      (λ b : bool, (if b then Some (c - 48) else None) = Some (c - 48))
      eq_refl (ascii_digit c) H
|}.

(** [int(s)] on a string of digit characters: [ValueError] on the empty
    string and on a digit without decimal value. *)
Fixpoint int_of_str_loop `{UnicodeTables} (s : str) (acc : N) : outcome N :=
  match s with
  | [] => Ok acc
  | c :: s' =>
      match digit_value c with
      | Some d => int_of_str_loop s' (10 * acc + d)
      | None => Raise ValueError
      end
  end.

Definition int_of_str `{UnicodeTables} (s : str) : outcome N :=
  match s with
  | [] => Raise ValueError
  | _ => int_of_str_loop s 0
  end.

(** [ch * n]: the character repeated. *)
Definition str_mul (ch : char) (n : N) : str := replicate (N.to_nat n) ch.

(** ** Run-length encoding *)

Module RunLengthEncoding.

(** The loop of [encode] over [i] in [range(1, len(data))]: [prev] is
    [data[i - 1]], the head of [rest] is [data[i]].  Once the range is
    exhausted [prev] is [data[-1]] and the last run is added. *)
Fixpoint encode_loop (prev : char) (rest : str) (encoded : str) (count : N)
  : str :=
  match rest with
  | [] => encoded ++ str_of_int count ++ [prev]
  | c :: rest' =>
      if decide (c = prev)
      then encode_loop c rest' encoded (count + 1)
      else encode_loop c rest' (encoded ++ str_of_int count ++ [prev]) 1
  end.

Definition encode (data : str) : str :=
  match data with
  | [] => []
  | c :: rest => encode_loop c rest [] 1
  end.

(** The loop of [decode] over the characters of [encoded]. *)
Fixpoint decode_loop `{UnicodeTables} (encoded decoded count : str)
  : outcome str :=
  match encoded with
  | [] => Ok decoded
  | ch :: rest =>
      if isdigit ch
      then decode_loop rest decoded (count ++ [ch])
      else n ← int_of_str count;
           decode_loop rest (decoded ++ str_mul ch n) []
  end.

Definition decode `{UnicodeTables} (encoded : str) : outcome str :=
  decode_loop encoded [] [].

(** [compress]: the encoding, what it decodes to, and the two sizes. *)
Definition compress `{UnicodeTables} (text : str)
  : outcome (str * str * nat * nat) :=
  let encoded := encode text in
  decoded ← decode encoded;
  Ok (encoded, decoded, length text, length encoded).

End RunLengthEncoding.

(** ** Comparison of Python sequences

    [a < b] on two lists (or two strings): the first position where the
    elements differ decides; where there is none, the shorter is the
    smaller. *)
Section seq_compare.
Context {A : Type} (eqb ltb : A → A → bool).

Fixpoint seq_lt (a b : list A) : bool :=
  match a, b with
  | [], [] => false
  | [], _ :: _ => true
  | _ :: _, [] => false
  | x :: a', y :: b' => if eqb x y then seq_lt a' b' else ltb x y
  end.

Fixpoint seq_eq (a b : list A) : bool :=
  match a, b with
  | [], [] => true
  | x :: a', y :: b' => eqb x y && seq_eq a' b'
  | _, _ => false
  end.
End seq_compare.

Definition str_lt : str → str → bool := seq_lt N.eqb N.ltb.
Definition str_eq : str → str → bool := seq_eq N.eqb.

(** ** The [heapq] module

    The binary heap of the standard library over a Python list, with the
    order [lt] of its items.  Index loops run on fuel: [_siftdown] moves
    [pos] towards the root, [_siftup] towards the leaves, so the position
    and the length bound them.  The indices the module computes are always
    inside the list; the lookups' other branch leaves the heap as it is. *)
Section heapq.
Context {A : Type} (lt : A → A → bool).

Fixpoint siftdown_loop (fuel : nat) (heap : list A) (startpos pos : nat)
  (newitem : A) : list A :=
  match fuel with
  | O => <[pos := newitem]> heap
  | S fuel' =>
      if (startpos <? pos)%nat then
        let parentpos := ((pos - 1) / 2)%nat in
        match heap !! parentpos with
        | Some parent =>
            if lt newitem parent
            then siftdown_loop fuel' (<[pos := parent]> heap)
                   startpos parentpos newitem
            else <[pos := newitem]> heap
        | None => heap
        end
      else <[pos := newitem]> heap
  end.

Definition _siftdown (heap : list A) (startpos pos : nat) : list A :=
  match heap !! pos with
  | Some newitem => siftdown_loop pos heap startpos pos newitem
  | None => heap
  end.

(** The loop of [_siftup]: returns the heap and the leaf position where
    the hole ended. *)
Fixpoint siftup_loop (fuel : nat) (heap : list A) (endpos pos : nat)
  : list A * nat :=
  match fuel with
  | O => (heap, pos)
  | S fuel' =>
      let childpos := (2 * pos + 1)%nat in
      if (childpos <? endpos)%nat then
        let rightpos := (childpos + 1)%nat in
        let childpos :=
          if (rightpos <? endpos)%nat then
            match heap !! childpos, heap !! rightpos with
            | Some l, Some r => if lt l r then childpos else rightpos
            | _, _ => childpos
            end
          else childpos in
        match heap !! childpos with
        | Some child =>
            siftup_loop fuel' (<[pos := child]> heap) endpos childpos
        | None => (heap, pos)
        end
      else (heap, pos)
  end.

Definition _siftup (heap : list A) (pos : nat) : list A :=
  match heap !! pos with
  | Some newitem =>
      let endpos := length heap in
      let '(heap', pos') := siftup_loop endpos heap endpos pos in
      _siftdown (<[pos' := newitem]> heap') pos pos'
  | None => heap
  end.

Definition heappush (heap : list A) (item : A) : list A :=
  let heap := heap ++ [item] in
  _siftdown heap 0 (length heap - 1).

(** [heappop] returns the popped item and the heap left. *)
Definition heappop (heap : list A) : outcome (A * list A) :=
  match reverse heap with
  | [] => Raise IndexError
  | lastelt :: rest =>
      match reverse rest with
      | [] => Ok (lastelt, [])
      | returnitem :: tl => Ok (returnitem, _siftup (lastelt :: tl) 0)
      end
  end.

(** [for i in reversed(range(n // 2)): _siftup(x, i)] *)
Definition heapify (x : list A) : list A :=
  foldl (λ x i, _siftup x i) x (reverse (seq 0 (length x / 2))).
End heapq.

(** ** Huffman coding *)

Module HuffmanCoding.

(** A [[char, code]] pair, a heap item [[weight, pair, pair, ...]], the
    frequency counter and the code table; dictionaries keep their
    insertion order. *)
Abbreviation pair := (char * str)%type (only parsing).
Abbreviation item := (N * list pair)%type (only parsing).
Abbreviation Counter := (list (char * N)) (only parsing).
Abbreviation codes := (list (char * str)) (only parsing).

(** Python's order on the items: weights first, then the pairs, each a
    two-element list of strings. *)
Definition pair_eq (p q : pair) : bool :=
  (p.1 =? q.1) && str_eq p.2 q.2.
Definition pair_lt (p q : pair) : bool :=
  if p.1 =? q.1 then str_lt p.2 q.2 else p.1 <? q.1.
Definition item_lt (a b : item) : bool :=
  if a.1 =? b.1 then seq_lt pair_eq pair_lt a.2 b.2 else a.1 <? b.1.

(** [Counter(text)]: one more for [ch], a new key going last. *)
Fixpoint count_char (ch : char) (freq : Counter) : Counter :=
  match freq with
  | [] => [(ch, 1)]
  | (c, n) :: freq' =>
      if decide (c = ch) then (c, n + 1) :: freq'
      else (c, n) :: count_char ch freq'
  end.

Definition build_frequency (text : str) : Counter :=
  foldl (λ freq ch, count_char ch freq) [] text.

Definition build_heap (freq : Counter) : list item :=
  heapify item_lt (map (λ '(ch, weight), (weight, [(ch, [])])) freq).

(** [pair[1] = bit + pair[1]] for every pair of an item. *)
Definition prepend (bit : char) (pairs : list pair) : list pair :=
  map (λ '(ch, code), (ch, bit :: code)) pairs.

(** [dict(pairs)]: a key seen again keeps its place and takes the new
    value. *)
Fixpoint dict_set {V} (k : char) (v : V) (d : list (char * V))
  : list (char * V) :=
  match d with
  | [] => [(k, v)]
  | (k', v') :: d' =>
      if decide (k' = k) then (k, v) :: d' else (k', v') :: dict_set k v d'
  end.

Definition dict {V} (pairs : list (char * V)) : list (char * V) :=
  foldl (λ d '(k, v), dict_set k v d) [] pairs.

Fixpoint dict_get {V} (d : list (char * V)) (k : char) : outcome V :=
  match d with
  | [] => Raise KeyError
  | (k', v) :: d' => if decide (k' = k) then Ok v else dict_get d' k
  end.

(** One round of the loop of [build_codes]. *)
Definition merge (heap : list item) : outcome (list item) :=
  '(smallest, heap) ← heappop item_lt heap;
  '(secsmallest, heap) ← heappop item_lt heap;
  Ok (heappush item_lt heap
        (smallest.1 + secsmallest.1,
         prepend 48 smallest.2 ++ prepend 49 secsmallest.2)).

(** [while len(heap) > 1]: every round takes one item off the heap, so
    its length bounds the rounds. *)
Fixpoint build_codes_loop (fuel : nat) (heap : list item)
  : outcome (list item) :=
  match fuel with
  | O => Ok heap
  | S fuel' =>
      if (1 <? length heap)%nat
      then heap ← merge heap; build_codes_loop fuel' heap
      else Ok heap
  end.

Definition build_codes (heap : list item) : outcome codes :=
  heap ← build_codes_loop (length heap) heap;
  match heap with
  | [] => Raise IndexError
  | root :: _ => Ok (dict root.2)
  end.

(** ["".join(codes[ch] for ch in text)] *)
Fixpoint huffman_encode (text : str) (table : codes) : outcome str :=
  match text with
  | [] => Ok []
  | ch :: text' =>
      code ← dict_get table ch;
      rest ← huffman_encode text' table;
      Ok (code ++ rest)
  end.

Definition compress (text : str) : outcome (str * codes * Counter) :=
  let freq := build_frequency text in
  let heap := build_heap freq in
  table ← build_codes heap;
  encoded ← huffman_encode text table;
  Ok (encoded, table, freq).

(** [{code: char for char, code in codes.items()}] *)
Definition reverse_codes (table : codes) : gmap str char :=
  foldl (λ m '(ch, code), <[code := ch]> m) ∅ table.

(** The loop of [decode]: the text decoded and the candidate code left
    when the bits run out. *)
Fixpoint decode_loop (rev : gmap str char) (encoded_binary : str)
  (decoded_text current_code : str) : str * str :=
  match encoded_binary with
  | [] => (decoded_text, current_code)
  | bit :: rest =>
      let current_code := current_code ++ [bit] in
      match rev !! current_code with
      | Some ch => decode_loop rev rest (decoded_text ++ [ch]) []
      | None => decode_loop rev rest decoded_text current_code
      end
  end.

Definition decode (encoded_binary : str) (table : codes) : outcome str :=
  Ok (decode_loop (reverse_codes table) encoded_binary [] []).1.

End HuffmanCoding.

(** ** Golomb coding *)

Module GolombCoding.
Local Open Scope Z_scope.

(** ["1" * q + "0"]; a negative [q] repeats nothing. *)
Definition unary_encode (q : Z) : str := replicate (Z.to_nat q) 49%N ++ [48%N].

(** The binary digits of a positive number, most significant first. *)
Fixpoint bin_digits (p : positive) : str :=
  match p with
  | xH => [49%N]
  | xO p' => bin_digits p' ++ [48%N]
  | xI p' => bin_digits p' ++ [49%N]
  end.

Definition bin (v : Z) : str :=
  match v with
  | Z0 => [48%N]
  | Zpos p | Zneg p => bin_digits p
  end.

Definition zfill (width : Z) (s : str) : str :=
  replicate (Z.to_nat width - length s) 48%N ++ s.

(** [format(v, f'0{width}b')]: the binary digits padded with zeros to
    [width] characters at least, the sign of a negative number going
    first and counting in the width. *)
Definition format_bin (v width : Z) : str :=
  if v <? 0 then 45%N :: zfill (width - 1) (bin v) else zfill width (bin v).

(** [math.log2] returns a float, which the source takes to an integer
    with [int] (for a power of two) or [math.ceil].  They are modelled by
    the exact integer logarithms, which is what the floats give on every
    parameter up to [2^48]; [math.log2] raises [ValueError] on a number
    that is not positive.  Beyond [2^48] the float can round down to an
    integer ([math.ceil(math.log2(2^49 + 1))] is 49, not 50) and the
    model is no longer the program: what is proved of [encode] and
    [decode] on a positive parameter is stated for [m <= 2^48]. *)
Definition int_log2 (m : Z) : outcome Z :=
  if m <=? 0 then Raise ValueError else Ok (Z.log2 m).
Definition ceil_log2 (m : Z) : outcome Z :=
  if m <=? 0 then Raise ValueError else Ok (Z.log2_up m).

(** Step 3 of [encode]: the code of the remainder [r]. *)
Definition remainder_code (r m : Z) : outcome str :=
  if Z.land m (m - 1) =? 0 then
    k ← int_log2 m;
    Ok (format_bin r k)
  else
    b ← ceil_log2 m;
    let T := 2 ^ b - m in
    if r <? T then Ok (format_bin r (b - 1))
    else Ok (format_bin (r + T) b).

(** [n // m] and [n % m] raise [ZeroDivisionError] on [m = 0]; for
    another [m] they are the floor division of [Z]. *)
Definition encode (n m : Z) : outcome str :=
  if m =? 0 then Raise ZeroDivisionError else
  let q := n / m in
  let r := n mod m in
  let quotient_code := unary_encode q in
  remainder_code ← remainder_code r m;
  Ok (quotient_code ++ remainder_code).

(** [int(s, 2)] on a string of binary digits with an optional sign;
    another character is a [ValueError].  (Python also accepts blanks,
    underscores and a [0b] prefix, which no codeword has.) *)
Fixpoint int2_loop (s : str) (acc : Z) : outcome Z :=
  match s with
  | [] => Ok acc
  | c :: s' =>
      if decide (c = 48%N) then int2_loop s' (2 * acc)
      else if decide (c = 49%N) then int2_loop s' (2 * acc + 1)
      else Raise ValueError
  end.

Definition int2_digits (s : str) : outcome Z :=
  match s with
  | [] => Raise ValueError
  | _ => int2_loop s 0
  end.

Definition int2 (s : str) : outcome Z :=
  match s with
  | c :: s' =>
      if decide (c = 45%N) then v ← int2_digits s'; Ok (- v)
      else if decide (c = 43%N) then int2_digits s'
      else int2_digits s
  | [] => Raise ValueError
  end.

(** [int(remainder_bits, 2) if remainder_bits else 0] *)
Definition int2_or_0 (remainder_bits : str) : outcome Z :=
  match remainder_bits with
  | [] => Ok 0
  | _ => int2 remainder_bits
  end.

(** [codeword[lo:hi]] for [0 <= lo]. *)
Definition slice (s : str) (lo hi : Z) : str :=
  take (Z.to_nat (hi - lo)) (drop (Z.to_nat lo) s).

(** The loop of [decode] counting the ones before the first zero. *)
Fixpoint leading_ones (codeword : str) : Z :=
  match codeword with
  | c :: codeword' =>
      if decide (c = 49%N) then 1 + leading_ones codeword' else 0
  | [] => 0
  end.

Definition decode (codeword : str) (m : Z) : outcome Z :=
  let q := leading_ones codeword in
  let pos := q in
  let pos := pos + 1 in
  r ←
    (if Z.land m (m - 1) =? 0 then
       k ← int_log2 m;
       int2_or_0 (slice codeword pos (pos + k))
     else
       b ← ceil_log2 m;
       let T := 2 ^ b - m in
       if pos + b - 1 <=? Z.of_nat (length codeword) then
         r_temp ← int2_or_0 (slice codeword pos (pos + b - 1));
         if r_temp <? T then Ok r_temp
         else
           match slice codeword pos (pos + b) with
           | [] => Ok 0
           | remainder_bits => v ← int2 remainder_bits; Ok (v - T)
           end
       else Ok 0);
  Ok (q * m + r).

Fixpoint compress (numbers : list Z) (m : Z) : outcome (list (Z * str)) :=
  match numbers with
  | [] => Ok []
  | n :: numbers' =>
      codeword ← encode n m;
      results ← compress numbers' m;
      Ok ((n, codeword) :: results)
  end.

End GolombCoding.

(** ** LZW coding *)

Module LZWCoding.
Local Open Scope Z_scope.

Definition chr (i : Z) : str := [Z.to_N i].

(** [dictionary[key]] *)
Definition getitem `{Countable K} {V} (d : gmap K V) (k : K) : outcome V :=
  match d !! k with
  | Some v => Ok v
  | None => Raise KeyError
  end.

(** [s[0]] *)
Definition first (s : str) : outcome char :=
  match s with
  | c :: _ => Ok c
  | [] => Raise IndexError
  end.

(** [for i in range(256): dictionary[chr(i)] = i] *)
Definition encode_init : gmap str Z :=
  foldl (λ d i, <[chr i := i]> d) ∅ (seqZ 0 256).

Fixpoint encode_loop (text : str) (dictionary : gmap str Z) (next_code : Z)
  (current_c : str) (result : list Z)
  : outcome (list Z * gmap str Z * str) :=
  match text with
  | [] => Ok (result, dictionary, current_c)
  | next_n :: text' =>
      let combined := current_c ++ [next_n] in
      match dictionary !! combined with
      | Some _ => encode_loop text' dictionary next_code combined result
      | None =>
          code ← getitem dictionary current_c;
          encode_loop text' (<[combined := next_code]> dictionary)
            (next_code + 1) [next_n] (result ++ [code])
      end
  end.

Definition encode (text : str) : outcome (list Z * gmap str Z) :=
  '(result, dictionary, current_c) ← encode_loop text encode_init 256 [] [];
  match current_c with
  | [] => Ok (result, dictionary)
  | _ =>
      code ← getitem dictionary current_c;
      Ok (result ++ [code], dictionary)
  end.

(** [{i: chr(i) for i in range(initial_dict_size)}] *)
Definition decode_init (initial_dict_size : Z) : gmap Z str :=
  foldl (λ d i, <[i := chr i]> d) ∅ (seqZ 0 initial_dict_size).

Fixpoint decode_loop (codes : list Z) (dictionary : gmap Z str)
  (next_code : Z) (previous_string decoded_text : str) : outcome str :=
  match codes with
  | [] => Ok decoded_text
  | code :: codes' =>
      current_string ←
        match dictionary !! code with
        | Some s => Ok s
        | None =>
            if decide (code = next_code)
            then c ← first previous_string; Ok (previous_string ++ [c])
            else Raise ValueError
        end;
      c ← first current_string;
      decode_loop codes' (<[next_code := previous_string ++ [c]]> dictionary)
        (next_code + 1) current_string (decoded_text ++ current_string)
  end.

Definition decode_from (initial_dict_size : Z) (codes : list Z)
  : outcome str :=
  let dictionary := decode_init initial_dict_size in
  let next_code := initial_dict_size in
  match codes with
  | [] => Ok []
  | current_code :: codes' =>
      decoded_text ← getitem dictionary current_code;
      decode_loop codes' dictionary next_code decoded_text decoded_text
  end.

(** [decode(codes)] with the default [initial_dict_size=256]. *)
Definition decode (codes : list Z) : outcome str := decode_from 256 codes.

Definition compress (text : str) : outcome (list Z * gmap str Z * str) :=
  '(codes, dict_used) ← encode text;
  decoded_text ← decode codes;
  Ok (codes, dict_used, decoded_text).

End LZWCoding.

(** * Specification vocabulary and invariants *)

(** A character of a codeword. *)
Definition is_bit (c : char) : Prop := c = 48%N ∨ c = 49%N.

(** No two neighbours of the text are equal: every run has length one. *)
Definition no_repeat (x : str) : Prop :=
  ∀ i a b, x !! i = Some a → x !! S i = Some b → a ≠ b.

(** ** Ordered heaps *)

Section heap_order.
Context {A : Type} (lt : A → A → bool).

(** [le a b] is Python's [not b < a]. *)
Definition le (a b : A) : Prop := lt b a = false.

Definition child (j i : nat) : Prop := j = (2 * i + 1)%nat ∨ j = (2 * i + 2)%nat.

(** The heap invariant of [heapq] from position [s] on: no item is
    greater than its children. *)
Definition heap_from (s : nat) (heap : list A) : Prop :=
  ∀ i j a b, (s ≤ i)%nat → child j i →
    heap !! i = Some a → heap !! j = Some b → le a b.

(** The positions under [s]. *)
Inductive desc (s : nat) : nat → Prop :=
| desc_refl : desc s s
| desc_child p j : desc s p → child j p → desc s j.

(** The invariant of the sifting loops: the item at [pos] is a hole,
    everything else from [s] on is ordered, and the parent of the hole is
    not greater than the children of the hole. *)
Record hole_inv (s : nat) (heap : list A) (pos : nat) : Prop := {
  hole_desc : desc s pos;
  hole_rest : ∀ i j a b, (s ≤ i)%nat → child j i → i ≠ pos → j ≠ pos →
    heap !! i = Some a → heap !! j = Some b → le a b;
  hole_skip : ∀ pp j a b, (s < pos)%nat → child pos pp → child j pos →
    heap !! pp = Some a → heap !! j = Some b → le a b
}.
End heap_order.

Record strict_total {A : Type} (eqb ltb : A → A → bool) : Prop := {
  st_eq : ∀ a b, eqb a b = true ↔ a = b;
  st_irrefl : ∀ a, ltb a a = false;
  st_trans : ∀ a b c, ltb a b = true → ltb b c = true → ltb a c = true;
  st_total : ∀ a b, ltb a b = true ∨ a = b ∨ ltb b a = true
}.

(** ** Code tables *)

Section huffman_spec.
Import HuffmanCoding.

(** No symbol's code is a prefix of another symbol's code. *)
Definition prefix_free (table : list pair) : Prop :=
  ∀ s1 c1 s2 c2,
    (s1, c1) ∈ table → (s2, c2) ∈ table → s1 ≠ s2 → ¬ c1 `prefix_of` c2.

(** The sum over the codes of [2^(-length)]. *)
Definition kraft_sum (table : list pair) : Q :=
  foldr (λ p acc, (2 ^ (- Z.of_nat (length p.2)) + acc)%Q) 0%Q table.

(** What an item of the heap carries: its pairs have distinct symbols
    and prefix-free codes adding up to one, and but for a single leaf
    no code is empty. *)
Record item_ok (it : item) : Prop := {
  ok_nonempty : it.2 ≠ [];
  ok_prefix_free : prefix_free it.2;
  ok_kraft : (kraft_sum it.2 == 1)%Q;
  ok_codes : (∃ ch, it.2 = [(ch, [])]) ∨ Forall (λ p, p.2 ≠ []) it.2
}.

Definition symbols (heap : list item) : list char :=
  heap ≫= λ it, it.2.*1.

Definition heap_ok (heap : list item) : Prop :=
  Forall item_ok heap ∧ NoDup (symbols heap).

Definition leaf : char * N → item := λ '(ch, weight), (weight, [(ch, [])]).

(** The table that [decode] needs: one code per symbol, none of them
    empty, none a prefix of another. *)
Record decodable (table : codes) : Prop := {
  dec_keys : NoDup table.*1;
  dec_prefix_free : prefix_free table;
  dec_nonempty : Forall (λ p, p.2 ≠ []) table
}.

(** C7 as the specification words it, on a text of two symbols of equal
    count: the symbol seen first gets ["0"], the other ["1"]. *)
Definition first_seen_gets_0 (text : str) : Prop :=
  ∀ a b w,
    build_frequency text = [(a, w); (b, w)] →
    build_codes (build_heap (build_frequency text))
    = Ok [(a, [48%N]); (b, [49%N])].

(** The heaps that [build_codes] goes through on a text. *)
Inductive reachable (text : str) : list item → Prop :=
| reachable_heap : reachable text (build_heap (build_frequency text))
| reachable_merge heap heap' :
    reachable text heap → (1 < length heap)%nat → merge heap = Ok heap' →
    reachable text heap'.

(** C9 as the specification words it: a final candidate that is not
    empty and matches no code makes [decode] fail. *)
Definition rejects_truncated (table : codes) (encoded_binary : str) : Prop :=
  ∀ text candidate,
    decode_loop (reverse_codes table) encoded_binary [] [] = (text, candidate) →
    candidate ≠ [] → reverse_codes table !! candidate = None →
    raises (decode encoded_binary table).

(** The number of times [ch] occurs in the text. *)
Definition occurrences (ch : char) (text : str) : N :=
  N.of_nat (length (filter (λ c, c = ch) text)).

(** The codes of an item are made of bits, and each is shorter than the
    item has pairs. *)
Definition codes_ok (it : item) : Prop :=
  it.2 ≠ []
  ∧ Forall (λ p, Forall is_bit p.2 ∧ (length p.2 < length it.2)%nat) it.2.
End huffman_spec.

(** ** Phrases of LZW *)

Section lzw_spec.
Import LZWCoding.
Local Open Scope Z_scope.

(** The phrases the encoder cuts the text into, with their codes: each
    code is looked up in the table as it is when the phrase is emitted,
    and emitting a phrase that is not the last adds the phrase extended
    by the first character of the next one, under the next free code. *)
Inductive phrases (E : gmap Z (list N)) (n : Z)
  : list Z → list (list N) → Prop :=
| phrases_nil : phrases E n [] []
| phrases_last c p :
    E !! c = Some p → p ≠ [] → phrases E n [c] [p]
| phrases_cons c p cs p' ps :
    E !! c = Some p → p ≠ [] →
    phrases (<[n := p ++ take 1 p']> E) (n + 1) cs (p' :: ps) →
    phrases E n (c :: cs) (p :: p' :: ps).

(** No code from [n] on is in use. *)
Definition fresh (E : gmap Z (list N)) (n : Z) : Prop :=
  ∀ k, n ≤ k → E !! k = None.

(** The encoder's dictionary is read backwards by the table [E]. *)
Definition inverse (D : gmap (list N) Z) (E : gmap Z (list N)) : Prop :=
  ∀ s c, D !! s = Some c → E !! c = Some s.

(** Step 3 of [encode]. *)
Definition finish (st : list Z * gmap (list N) Z * list N)
  : outcome (list Z * gmap (list N) Z) :=
  let '(result, dictionary, current_c) := st in
  match current_c with
  | [] => Ok (result, dictionary)
  | _ =>
      code ← getitem dictionary current_c;
      Ok (result ++ [code], dictionary)
  end.

(** The decoder is one entry behind the encoder: the entry the encoder
    added on emitting [prev] is the one the decoder adds after the next
    code. *)
Definition behind (T : gmap Z (list N)) (n : Z) (prev : list N)
    (cs : list Z) (ps : list (list N)) : Prop :=
  match ps with
  | [] => cs = []
  | p' :: _ => phrases (<[n := prev ++ take 1 p']> T) (n + 1) cs ps
  end.

(** The codes a decoder can take: the code at position [i] is one of the
    256 initial codes or of the [i] codes created so far. *)
Definition valid_codes (codes : list Z) : Prop :=
  ∀ i c, codes !! i = Some c → 0 ≤ c < 256 + Z.of_nat i.

(** The decoder's dictionary holds the codes below [n], none of them for
    the empty string. *)
Definition table_inv (T : gmap Z (list N)) (n : Z) : Prop :=
  0 ≤ n
  ∧ (∀ k, is_Some (T !! k) ↔ 0 ≤ k < n)
  ∧ (∀ k s, T !! k = Some s → s ≠ []).

(** The encoder's dictionary holds every single character below 256, and
    strings of such characters only. *)
Definition dict_inv (D : gmap (list N) Z) : Prop :=
  (∀ s c, D !! s = Some c → s ≠ [] ∧ Forall (λ ch, (ch < 256)%N) s)
  ∧ (∀ ch, (ch < 256)%N → is_Some (D !! [ch])).
End lzw_spec.

(** * Properties *)

Lemma bind_Ok {A B} (a : A) (k : A → outcome B) : Ok a ≫= k = k a.
Proof. reflexivity. Qed.

(** ** Decimal numbers *)

Section decimal.
Context `{UnicodeTables}.

Lemma digit_char d :
  (d < 10)%N →
  isdigit (48 + d)%N = true ∧ digit_value (48 + d)%N = Some d.
Proof.
  intros Hd.
  assert (Ha : ascii_digit (48 + d)%N = true).
  { unfold ascii_digit. apply andb_true_iff. split; apply N.leb_le; lia. }
  split.
  - rewrite isdigit_ascii by lia. exact Ha.
  - rewrite (digit_value_ascii _ Ha). f_equal. lia.
Qed.

Lemma str_of_int_loop_digits fuel n acc :
  Forall (λ c, isdigit c = true) acc →
  Forall (λ c, isdigit c = true) (str_of_int_loop fuel n acc).
Proof.
  revert n acc. induction fuel as [|fuel IH]; intros n acc Hacc; simpl.
  - constructor; [|done]. apply digit_char. apply N.mod_lt. lia.
  - assert (Hd : isdigit (48 + n mod 10)%N = true).
    { apply digit_char. apply N.mod_lt. lia. }
    destruct (n <? 10)%N; [by constructor|].
    apply IH. by constructor.
Qed.

Lemma str_of_int_loop_nonempty fuel n acc : str_of_int_loop fuel n acc ≠ [].
Proof.
  revert n acc. induction fuel as [|fuel IH]; intros n acc; simpl; [done|].
  destruct (n <? 10)%N; [done|]. apply IH.
Qed.

(** Reading the digits of [n] in front of [acc] from zero is reading
    [acc] from [n]. *)
Lemma int_of_str_loop_str_of_int_loop fuel n acc :
  (n < 2 ^ N.of_nat (S fuel))%N →
  int_of_str_loop (str_of_int_loop fuel n acc) 0 = int_of_str_loop acc n.
Proof.
  revert n acc. induction fuel as [|fuel IH]; intros n acc Hn.
  - simpl in *. assert (Hlt : (n < 10)%N) by lia.
    rewrite N.mod_small by done.
    destruct (digit_char n Hlt) as [_ ->]. f_equal.
  - cbn [str_of_int_loop]. destruct (N.ltb_spec n 10) as [Hlt|Hge].
    + simpl. rewrite N.mod_small by done.
      destruct (digit_char n Hlt) as [_ ->]. f_equal.
    + rewrite IH.
      * assert (Hm : (n mod 10 < 10)%N) by (apply N.mod_lt; lia).
        simpl. destruct (digit_char (n mod 10) Hm) as [_ ->].
        f_equal. pose proof (N.div_mod n 10). lia.
      * rewrite Nat2N.inj_succ, N.pow_succ_r' in Hn.
        apply N.Div0.div_lt_upper_bound. lia.
Qed.

Lemma int_of_str_str_of_int n : int_of_str (str_of_int n) = Ok n.
Proof.
  unfold int_of_str, str_of_int.
  pose proof (str_of_int_loop_nonempty (N.to_nat (N.log2 n)) n []) as Hne.
  destruct (str_of_int_loop _ n []) as [|c s] eqn:E; [done|].
  rewrite <- E. rewrite int_of_str_loop_str_of_int_loop; [done|].
  rewrite Nat2N.inj_succ, N2Nat.id.
  destruct n as [|p]; [done|]. apply N.log2_spec. lia.
Qed.

Lemma str_of_int_digits n : Forall (λ c, isdigit c = true) (str_of_int n).
Proof. apply str_of_int_loop_digits. constructor. Qed.
End decimal.

(** ** Run-length encoding *)

Section rle.
Context `{UnicodeTables}.
Import RunLengthEncoding.

Lemma encode_loop_app prev rest encoded count :
  encode_loop prev rest encoded count
  = encoded ++ encode_loop prev rest [] count.
Proof.
  revert prev encoded count.
  induction rest as [|c rest IH]; intros prev encoded count; simpl.
  - done.
  - destruct (decide (c = prev)); [apply IH|].
    rewrite IH. rewrite (IH _ (_ ++ _)). by rewrite !(assoc_L (++)).
Qed.

Lemma decode_loop_digits ds rest decoded count :
  Forall (λ c, isdigit c = true) ds →
  decode_loop (ds ++ rest) decoded count
  = decode_loop rest decoded (count ++ ds).
Proof.
  intros Hds. revert count.
  induction Hds as [|d ds Hd _ IH]; intros count; simpl.
  - by rewrite (right_id_L [] (++)).
  - rewrite Hd, IH. by rewrite <- (assoc_L (++)).
Qed.

(** Decoding one run. *)
Lemma decode_loop_run n ch rest decoded :
  isdigit ch = false →
  decode_loop (str_of_int n ++ ch :: rest) decoded []
  = decode_loop rest (decoded ++ str_mul ch n) [].
Proof.
  intros Hch. rewrite decode_loop_digits by apply str_of_int_digits.
  simpl. rewrite Hch, int_of_str_str_of_int. done.
Qed.

Lemma decode_encode_loop rest prev count decoded :
  isdigit prev = false →
  Forall (λ c, isdigit c = false) rest →
  decode_loop (encode_loop prev rest [] count) decoded []
  = Ok (decoded ++ str_mul prev count ++ rest).
Proof.
  intros Hprev Hrest. revert prev count decoded Hprev.
  induction Hrest as [|c rest Hc _ IH]; intros prev count decoded Hprev;
    simpl.
  - rewrite decode_loop_run by done. simpl.
    by rewrite (right_id_L [] (++)).
  - destruct (decide (c = prev)) as [->|Hne].
    + rewrite IH by done. do 2 f_equal. unfold str_mul.
      replace (N.to_nat (count + 1)) with (S (N.to_nat count)) by lia.
      rewrite replicate_S_end. by rewrite <- (assoc_L (++)).
    + rewrite encode_loop_app, <- (assoc_L (++)). simpl.
      rewrite decode_loop_run by done. rewrite IH by done.
      by rewrite <- (assoc_L (++)).
Qed.

Lemma decode_encode x :
  Forall (λ c, isdigit c = false) x → decode (encode x) = Ok x.
Proof.
  intros Hx. destruct Hx as [|c x Hc Hx]; [done|].
  unfold decode, encode. by rewrite decode_encode_loop.
Qed.
End rle.

(** C10.  Run-length coding round-trips on every string without a digit
    character: [decode(encode(x)) = x]; in particular
    [encode("AAAABBBCCDAA") = "4A3B2C1D2A"], which decodes to
    ["AAAABBBCCDAA"] again. *)
Theorem rle_round_trip `{UnicodeTables} (x : str) :
  Forall (λ c, isdigit c = false) x →
  RunLengthEncoding.decode (RunLengthEncoding.encode x) = Ok x
  ∧ RunLengthEncoding.encode (lit "AAAABBBCCDAA") = lit "4A3B2C1D2A"
  ∧ RunLengthEncoding.decode (lit "4A3B2C1D2A") = Ok (lit "AAAABBBCCDAA").
Proof.
  intros Hx. split; [by apply decode_encode|]. split; [by vm_compute|].
  change (lit "4A3B2C1D2A")
    with (RunLengthEncoding.encode (lit "AAAABBBCCDAA")).
  apply decode_encode.
  repeat constructor; by rewrite isdigit_ascii.
Qed.

Lemma rle_round_trip_witness :
  Forall (λ c, isdigit c = false) (lit "WWWWBWW")
  ∧ RunLengthEncoding.decode (RunLengthEncoding.encode (lit "WWWWBWW"))
    = Ok (lit "WWWWBWW").
Proof.
  assert (Hx : Forall (λ c, isdigit c = false) (lit "WWWWBWW"))
    by (repeat constructor).
  split; [exact Hx|].
  exact (proj1 (rle_round_trip (lit "WWWWBWW") Hx)).
Defined.

(** ** Golomb coding *)

Section golomb.
Import GolombCoding.
Local Open Scope Z_scope.

Lemma int2_loop_app s t acc :
  int2_loop (s ++ t) acc = int2_loop s acc ≫= int2_loop t.
Proof.
  revert acc. induction s as [|c s IH]; intros acc; simpl; [done|].
  repeat case_decide; by rewrite ?IH.
Qed.

Lemma int2_loop_zeros k s acc :
  int2_loop (replicate k 48%N ++ s) acc = int2_loop s (2 ^ Z.of_nat k * acc).
Proof.
  revert acc. induction k as [|k IH]; intros acc.
  - simpl. f_equal. lia.
  - cbn [replicate app int2_loop]. rewrite decide_True by done.
    rewrite IH. f_equal. rewrite Nat2Z.inj_succ, Z.pow_succ_r by lia. lia.
Qed.

Lemma int2_loop_bin_digits p : int2_loop (bin_digits p) 0 = Ok (Zpos p).
Proof.
  induction p as [p IH|p IH|]; simpl; [| |done];
    rewrite int2_loop_app, IH; simpl; by repeat case_decide.
Qed.

Lemma int2_loop_bin v : 0 ≤ v → int2_loop (bin v) 0 = Ok v.
Proof.
  destruct v as [|p|p]; intros Hv; [done| |lia].
  apply int2_loop_bin_digits.
Qed.

Lemma bin_digits_bits p : Forall is_bit (bin_digits p).
Proof.
  induction p as [p IH|p IH|]; simpl.
  - apply Forall_app. split; [done|]. constructor; [by right|constructor].
  - apply Forall_app. split; [done|]. constructor; [by left|constructor].
  - constructor; [by right|constructor].
Qed.

Lemma bin_bits v : Forall is_bit (bin v).
Proof.
  destruct v; simpl; try apply bin_digits_bits.
  constructor; [by left|constructor].
Qed.

Lemma bin_digits_length p :
  2 ^ (Z.of_nat (length (bin_digits p)) - 1) ≤ Zpos p
  ∧ (1 ≤ length (bin_digits p))%nat.
Proof.
  induction p as [p [IH1 IH2]|p [IH1 IH2]|]; simpl; [| |done];
    rewrite length_app; simpl; (split; [|lia]);
    replace (Z.of_nat (length (bin_digits p) + 1) - 1)
      with (Z.succ (Z.of_nat (length (bin_digits p)) - 1)) by lia;
    rewrite Z.pow_succ_r by lia; lia.
Qed.

(** A number below [2^k] has at most [k] binary digits, for [k >= 1]. *)
Lemma bin_length v k :
  0 ≤ v < 2 ^ k → 1 ≤ k → (1 ≤ length (bin v) ≤ Z.to_nat k)%nat.
Proof.
  intros [Hv0 Hv] Hk. destruct v as [|p|p]; [simpl; lia| |lia].
  simpl. destruct (bin_digits_length p) as [Hlo Hlen]. split; [done|].
  destruct (decide (length (bin_digits p) ≤ Z.to_nat k)%nat); [done|].
  exfalso.
  assert (2 ^ k ≤ 2 ^ (Z.of_nat (length (bin_digits p)) - 1))
    by (apply Z.pow_le_mono_r; lia).
  lia.
Qed.

Lemma zfill_bits w s : Forall is_bit s → Forall is_bit (zfill w s).
Proof.
  intros Hs. unfold zfill. apply Forall_app. split; [|done].
  apply Forall_replicate. by left.
Qed.

Lemma zfill_length w s :
  (length s ≤ Z.to_nat w)%nat → length (zfill w s) = Z.to_nat w.
Proof. intros Hs. unfold zfill. rewrite length_app, length_replicate. lia. Qed.

Lemma int2_loop_zfill w v :
  0 ≤ v → int2_loop (zfill w (bin v)) 0 = Ok v.
Proof.
  intros Hv. unfold zfill. rewrite int2_loop_zeros.
  rewrite Z.mul_0_r. by apply int2_loop_bin.
Qed.

(** On a non-empty string of binary digits [int] has no sign to read. *)
Lemma int2_bits s : Forall is_bit s → s ≠ [] → int2 s = int2_loop s 0.
Proof.
  intros Hs Hne. destruct Hs as [|c s [->| ->] Hs]; done.
Qed.

(** The value of all the digits but the last. *)
Lemma int2_loop_init s v :
  Forall is_bit s → s ≠ [] → int2_loop s 0 = Ok v →
  int2_loop (take (length s - 1) s) 0 = Ok (v / 2).
Proof.
  intros Hs Hne Hv.
  destruct (decide (s = [])) as [|_]; [done|].
  assert (Hsplit : ∃ c, is_bit c ∧ s = take (length s - 1) s ++ [c]).
  { destruct (drop (length s - 1) s) as [|c [|c' t]] eqn:Hd.
    - apply (f_equal length) in Hd. rewrite length_drop in Hd.
      destruct s; simpl in *; [done|lia].
    - exists c. split.
      + rewrite list.Forall_forall in Hs. apply Hs.
        rewrite <- (take_drop (length s - 1) s), Hd.
        apply elem_of_app. right. by left.
      + by rewrite <- Hd, take_drop.
    - apply (f_equal length) in Hd. rewrite length_drop in Hd.
      simpl in Hd. lia. }
  destruct Hsplit as (c & Hc & Hs').
  rewrite Hs' in Hv. rewrite int2_loop_app in Hv.
  destruct (int2_loop (take (length s - 1) s) 0) as [a|e]; [|done].
  simpl in Hv. f_equal.
  destruct Hc as [-> | ->]; simpl in Hv; repeat case_decide; try done;
    inversion Hv; subst.
  - symmetry. rewrite Z.mul_comm. by apply Z.div_mul.
  - symmetry. rewrite Z.mul_comm, Z.add_comm.
    rewrite Z.div_add by lia. done.
Qed.

Lemma leading_ones_replicate k rest :
  leading_ones (replicate k 49%N ++ 48%N :: rest) = Z.of_nat k.
Proof.
  induction k as [|k IH]; [done|].
  cbn [replicate app leading_ones]. rewrite decide_True by done. lia.
Qed.

Lemma leading_ones_unary q rest :
  0 ≤ q → leading_ones (unary_encode q ++ rest) = q.
Proof.
  intros Hq. unfold unary_encode. rewrite <- (assoc_L (++)). simpl.
  rewrite leading_ones_replicate. lia.
Qed.

Lemma unary_length q : 0 ≤ q → Z.of_nat (length (unary_encode q)) = q + 1.
Proof.
  intros Hq. unfold unary_encode.
  rewrite length_app, length_replicate. simpl. lia.
Qed.

Lemma slice_unary q rem w :
  0 ≤ q → 0 ≤ w →
  slice (unary_encode q ++ rem) (q + 1) (q + 1 + w) = take (Z.to_nat w) rem.
Proof.
  intros Hq Hw. unfold slice.
  replace (q + 1 + w - (q + 1)) with w by lia.
  f_equal. rewrite drop_app_length'; [done|].
  pose proof (unary_length q Hq). lia.
Qed.

(** [m & (m - 1) == 0] on a positive [m] says that [m] is a power of
    two. *)
Lemma land_pred_pow2 m :
  0 < m → Z.land m (m - 1) = 0 → m = 2 ^ Z.log2 m.
Proof.
  intros Hm Hland.
  destruct (Z.log2_spec m Hm) as [Hlo Hhi].
  destruct (decide (m = 2 ^ Z.log2 m)) as [|Hne]; [done|]. exfalso.
  assert (Hlog : Z.log2 (m - 1) = Z.log2 m).
  { apply Z.log2_unique; [apply Z.log2_nonneg|]. lia. }
  assert (Hb : Z.testbit (Z.land m (m - 1)) (Z.log2 m) = true).
  { rewrite Z.land_spec. rewrite Z.bit_log2 by done.
    rewrite <- Hlog. rewrite Z.bit_log2; [done|].
    pose proof (Z.pow_pos_nonneg 2 (Z.log2 m) ltac:(lia)
                  (Z.log2_nonneg m)). lia. }
  rewrite Hland in Hb. by rewrite Z.bits_0 in Hb.
Qed.

Lemma format_bin_nonneg v w : 0 ≤ v → format_bin v w = zfill w (bin v).
Proof.
  intros Hv. unfold format_bin.
  destruct (Z.ltb_spec v 0); [lia|done].
Qed.
Lemma int2_or_0_bits s :
  Forall is_bit s → s ≠ [] → int2_or_0 s = int2_loop s 0.
Proof.
  intros Hs Hne. destruct s as [|c s]; [done|].
  change (int2_or_0 (c :: s)) with (int2 (c :: s)). by apply int2_bits.
Qed.

Lemma int_log2_pos m : 0 < m → int_log2 m = Ok (Z.log2 m).
Proof. intros Hm. unfold int_log2. by destruct (Z.leb_spec m 0); [lia|]. Qed.

Lemma ceil_log2_pos m : 0 < m → ceil_log2 m = Ok (Z.log2_up m).
Proof. intros Hm. unfold ceil_log2. by destruct (Z.leb_spec m 0); [lia|]. Qed.

(** The remainder code of a power of two [m = 2^k] with [k >= 1]: the
    [k] binary digits of [r]. *)
Lemma remainder_code_pow2 r m :
  1 < m → 0 ≤ r < m → Z.land m (m - 1) = 0 →
  ∃ rc, remainder_code r m = Ok rc
        ∧ Z.of_nat (length rc) = Z.log2 m
        ∧ Forall is_bit rc ∧ int2_loop rc 0 = Ok r.
Proof.
  intros Hm Hr Hland. unfold remainder_code.
  rewrite Hland, Z.eqb_refl, int_log2_pos by lia. simpl.
  pose proof (land_pred_pow2 m ltac:(lia) Hland) as Hpow.
  assert (Hk : 1 ≤ Z.log2 m).
  { destruct (decide (Z.log2 m = 0)) as [E|]; [rewrite E in Hpow; lia|].
    pose proof (Z.log2_nonneg m). lia. }
  eexists. split; [done|]. rewrite format_bin_nonneg by lia.
  split; [|split].
  - rewrite zfill_length; [lia|]. apply bin_length; lia.
  - apply zfill_bits, bin_bits.
  - apply int2_loop_zfill. lia.
Qed.

(** A parameter that is not a power of two is at least 3, and
    [b = ceil(log2 m)] brackets it. *)
Lemma not_pow2_bounds m :
  1 ≤ m → Z.land m (m - 1) ≠ 0 →
  2 ≤ Z.log2_up m ∧ 2 ^ (Z.log2_up m - 1) < m ≤ 2 ^ Z.log2_up m.
Proof.
  intros Hm Hland.
  assert (3 ≤ m).
  { destruct (decide (m = 1)) as [->|]; [done|].
    destruct (decide (m = 2)) as [->|]; [done|]. lia. }
  pose proof (Z.log2_up_spec m ltac:(lia)) as Hspec.
  replace (Z.pred (Z.log2_up m)) with (Z.log2_up m - 1) in Hspec by lia.
  split; [|done].
  destruct (decide (Z.log2_up m ≤ 1)) as [Hle|]; [|lia].
  assert (2 ^ Z.log2_up m ≤ 2 ^ 1)
    by (apply Z.pow_le_mono_r; [lia|done]).
  change (2 ^ 1) with 2 in *. lia.
Qed.

(** The truncated binary code of the other parameters: [b - 1] digits
    for a remainder below [T = 2^b - m], the [b] digits of [r + T] for
    the others. *)
Lemma remainder_code_truncated r m :
  1 ≤ m → 0 ≤ r < m → Z.land m (m - 1) ≠ 0 →
  let b := Z.log2_up m in
  let T := 2 ^ b - m in
  ∃ rc, remainder_code r m = Ok rc ∧ Forall is_bit rc
        ∧ if decide (r < T)
          then Z.of_nat (length rc) = b - 1 ∧ int2_loop rc 0 = Ok r
          else Z.of_nat (length rc) = b ∧ int2_loop rc 0 = Ok (r + T).
Proof.
  intros Hm Hr Hland b T. unfold remainder_code.
  destruct (Z.eqb_spec (Z.land m (m - 1)) 0) as [|_]; [done|].
  rewrite ceil_log2_pos by lia. simpl. fold b. fold T.
  destruct (not_pow2_bounds m Hm Hland) as [Hb Hbm]. fold b in Hb, Hbm.
  assert (Hpow : 2 ^ b = 2 * 2 ^ (b - 1)).
  { rewrite <- Z.pow_succ_r by lia. f_equal. lia. }
  destruct (Z.ltb_spec r T) as [Hlt|Hge].
  - eexists. split; [done|]. rewrite format_bin_nonneg by lia.
    split; [apply zfill_bits, bin_bits|].
    rewrite decide_True by done. split.
    + rewrite zfill_length; [lia|]. apply bin_length; lia.
    + apply int2_loop_zfill. lia.
  - eexists. split; [done|]. rewrite format_bin_nonneg by lia.
    split; [apply zfill_bits, bin_bits|].
    rewrite decide_False by lia. split.
    + rewrite zfill_length; [lia|]. apply bin_length; lia.
    + apply int2_loop_zfill. lia.
Qed.

Lemma decode_codeword q r m rc :
  0 ≤ q → 1 ≤ m → 0 ≤ r < m → remainder_code r m = Ok rc →
  decode (unary_encode q ++ rc) m = Ok (q * m + r).
Proof.
  intros Hq Hm Hr Hrc. unfold decode.
  rewrite leading_ones_unary by done.
  destruct (Z.eqb_spec (Z.land m (m - 1)) 0) as [Hland|Hland].
  - rewrite int_log2_pos by lia. simpl.
    rewrite slice_unary by (pose proof (Z.log2_nonneg m); lia).
    destruct (decide (m = 1)) as [->|Hm1].
    + simpl. do 2 f_equal. lia.
    + destruct (remainder_code_pow2 r m) as (rc' & Hrc' & Hlen & Hbits & Hv);
        [lia|done|done|].
      rewrite Hrc in Hrc'. injection Hrc' as <-.
      rewrite take_ge by lia.
      rewrite int2_or_0_bits, Hv; [done|done|].
      intros ->. simpl in Hlen.
      pose proof (land_pred_pow2 m ltac:(lia) Hland) as Hpow.
      rewrite <- Hlen in Hpow. simpl in Hpow. lia.
  - rewrite ceil_log2_pos by lia. rewrite bind_Ok.
    destruct (remainder_code_truncated r m Hm Hr Hland)
      as (rc' & Hrc' & Hbits & Hcase).
    rewrite Hrc in Hrc'. injection Hrc' as <-.
    destruct (not_pow2_bounds m Hm Hland) as [Hb Hbm].
    set (b := Z.log2_up m) in *. set (T := 2 ^ b - m) in *.
    assert (Hpow : 2 ^ b = 2 * 2 ^ (b - 1)).
    { rewrite <- Z.pow_succ_r by lia. f_equal. lia. }
    rewrite length_app. pose proof (unary_length q Hq) as Hul.
    replace (q + 1 + b - 1) with (q + 1 + (b - 1)) by lia.
    rewrite !slice_unary by lia.
    destruct (decide (r < T)) as [Hlt|Hge]; destruct Hcase as [Hlen Hv].
    + destruct (Z.leb_spec (q + 1 + (b - 1))
                  (Z.of_nat (length (unary_encode q) + length rc)));
        [|lia].
      rewrite (take_ge rc (Z.to_nat (b - 1))) by lia.
      rewrite int2_or_0_bits, Hv; [|done|by intros ->; simpl in Hlen; lia].
      rewrite bind_Ok. by destruct (Z.ltb_spec r T); [|lia].
    + destruct (Z.leb_spec (q + 1 + (b - 1))
                  (Z.of_nat (length (unary_encode q) + length rc)));
        [|lia].
      assert (Hne : rc ≠ []) by (intros ->; simpl in Hlen; lia).
      pose proof (int2_loop_init rc _ Hbits Hne Hv) as Hinit.
      replace (Z.to_nat (b - 1)) with (length rc - 1)%nat by lia.
      rewrite int2_or_0_bits, Hinit; cycle 1.
      { by apply Forall_take. }
      { intros E. apply (f_equal length) in E.
        rewrite length_take in E. simpl in E. lia. }
      rewrite bind_Ok.
      assert (T ≤ (r + T) / 2) by (apply Z.div_le_lower_bound; lia).
      destruct (Z.ltb_spec ((r + T) / 2) T); [lia|].
      rewrite (take_ge rc (Z.to_nat b)) by lia.
      destruct rc as [|c rc]; [done|].
      rewrite int2_bits, Hv by done. simpl. do 2 f_equal. lia.
Qed.

Lemma decode_encode_golomb n m :
  0 ≤ n → 1 ≤ m →
  ∃ codeword, encode n m = Ok codeword ∧ decode codeword m = Ok n.
Proof.
  intros Hn Hm. unfold encode.
  destruct (Z.eqb_spec m 0) as [|_]; [lia|].
  assert (Hr : 0 ≤ n mod m < m) by (apply Z.mod_pos_bound; lia).
  assert (Hq : 0 ≤ n / m) by (apply Z.div_pos; lia).
  assert (∃ rc, remainder_code (n mod m) m = Ok rc) as [rc Hrc].
  { destruct (decide (Z.land m (m - 1) = 0)) as [Hland|Hland].
    - destruct (decide (m = 1)) as [->|]; [by eexists|].
      destruct (remainder_code_pow2 (n mod m) m) as (rc & ? & _);
        [lia|done|done|]. by exists rc.
    - destruct (remainder_code_truncated (n mod m) m Hm Hr Hland)
        as (rc & ? & _). by exists rc. }
  rewrite Hrc. simpl. eexists. split; [done|].
  rewrite (decode_codeword _ (n mod m)) by done.
  f_equal. rewrite Z.mul_comm. symmetry. apply Z.div_mod. lia.
Qed.
End golomb.

(** C3.  Golomb coding round-trips: for [n >= 0] and [m >= 1],
    [decode(encode(n, m), m) = n]; in particular [encode(10, 4)] is
    ["11010"] and [decode("11010", 4)] is [10].  The parameter is taken
    up to [2^48], where [math.log2] gives the exact logarithms that the
    model computes. *)
Theorem golomb_round_trip (n m : Z) :
  (0 ≤ n)%Z → (1 ≤ m ≤ 2 ^ 48)%Z →
  (GolombCoding.encode n m ≫= λ codeword, GolombCoding.decode codeword m)
  = Ok n
  ∧ GolombCoding.encode 10 4 = Ok (lit "11010")
  ∧ GolombCoding.decode (lit "11010") 4 = Ok 10%Z.
Proof.
  intros Hn [Hm _]. split; [|by vm_compute].
  destruct (decode_encode_golomb n m Hn Hm) as (codeword & -> & Hdec).
  by rewrite bind_Ok.
Qed.

Lemma golomb_round_trip_witness :
  (0 ≤ 42)%Z ∧ (1 ≤ 5 ≤ 2 ^ 48)%Z
  ∧ (GolombCoding.encode 42 5 ≫= λ codeword, GolombCoding.decode codeword 5)
    = Ok 42%Z.
Proof.
  split; [lia|]. split; [lia|].
  exact (proj1 (golomb_round_trip 42 5 ltac:(lia) ltac:(lia))).
Defined.

(** C8 at its boundary [m = 1 = 2^0]: the remainder part is the one
    character ["0"], not [k = 0] characters, and the codeword of [n] has
    [n + 2] characters, not [n div m + 1 + k = n + 1]. *)
Theorem golomb_remainder_width_m1 :
  GolombCoding.int_log2 1 = Ok 0%Z
  ∧ GolombCoding.remainder_code 0 1 = Ok (lit "0")
  ∧ GolombCoding.encode 0 1 = Ok (lit "00")
  ∧ GolombCoding.encode 3 1 = Ok (lit "11100").
Proof. by vm_compute. Qed.

(** ** The heap operations permute the heap *)

Section heapq_perm.
Context {A : Type} (lt : A → A → bool).

Lemma insert_swap_perm (l : list A) i j x y :
  (i < length l)%nat → l !! j = Some y → i ≠ j →
  <[j := x]> (<[i := y]> l) ≡ₚ <[i := x]> l.
Proof.
  intros Hi Hj Hne.
  rewrite <- (list_insert_insert_eq l i y x).
  apply Permutation_insert_swap.
  - by apply list_lookup_insert_eq.
  - by rewrite list_lookup_insert_ne.
Qed.

Lemma siftdown_loop_perm fuel (heap : list A) startpos pos newitem :
  (pos < length heap)%nat →
  siftdown_loop lt fuel heap startpos pos newitem ≡ₚ <[pos := newitem]> heap.
Proof.
  revert heap pos.
  induction fuel as [|fuel IH]; intros heap pos Hpos;
    cbn [siftdown_loop]; [done|].
  destruct (Nat.ltb_spec startpos pos) as [Hlt|_]; [|done].
  assert (Hpp : ((pos - 1) / 2 < pos)%nat).
  { apply Nat.Div0.div_lt_upper_bound. lia. }
  destruct (lookup_lt_is_Some_2 heap ((pos - 1) / 2)) as [parent Hparent];
    [lia|].
  rewrite Hparent. destruct (lt newitem parent); [|done].
  rewrite IH by (rewrite length_insert; lia).
  apply insert_swap_perm; [done|done|lia].
Qed.

Lemma siftdown_perm (heap : list A) startpos pos :
  _siftdown lt heap startpos pos ≡ₚ heap.
Proof.
  unfold _siftdown. destruct (heap !! pos) as [newitem|] eqn:E; [|done].
  rewrite siftdown_loop_perm by eauto using lookup_lt_Some.
  by rewrite list_insert_id.
Qed.

Lemma siftup_loop_perm fuel (heap : list A) endpos pos heap' pos' :
  (pos < length heap)%nat → (endpos ≤ length heap)%nat →
  siftup_loop lt fuel heap endpos pos = (heap', pos') →
  (pos' < length heap')%nat
  ∧ ∀ x, <[pos' := x]> heap' ≡ₚ <[pos := x]> heap.
Proof.
  revert heap pos.
  induction fuel as [|fuel IH]; intros heap pos Hpos Hend Hloop;
    cbn [siftup_loop] in Hloop.
  { by inversion Hloop; subst. }
  destruct (Nat.ltb_spec (2 * pos + 1) endpos) as [Hchild|_];
    [|by inversion Hloop; subst].
  set (c := if (2 * pos + 1 + 1 <? endpos)%nat
            then match heap !! (2 * pos + 1)%nat,
                       heap !! (2 * pos + 1 + 1)%nat with
                 | Some l, Some r =>
                     if lt l r then (2 * pos + 1)%nat
                     else (2 * pos + 1 + 1)%nat
                 | _, _ => (2 * pos + 1)%nat
                 end
            else (2 * pos + 1)%nat) in *.
  assert (Hc : (pos < c < endpos)%nat).
  { clear Hloop. unfold c.
    destruct (Nat.ltb_spec (2 * pos + 1 + 1) endpos); [|lia].
    destruct (heap !! (2 * pos + 1)%nat) as [a|]; [|lia].
    destruct (heap !! (2 * pos + 1 + 1)%nat) as [b|]; [|lia].
    destruct (lt a b); lia. }
  destruct (lookup_lt_is_Some_2 heap c) as [child Hlk]; [lia|].
  rewrite Hlk in Hloop.
  apply IH in Hloop as [Hlen Hperm]; [|rewrite length_insert; lia..].
  split; [done|]. intros x. rewrite Hperm.
  apply insert_swap_perm; [done|done|lia].
Qed.

Lemma siftup_perm (heap : list A) pos : _siftup lt heap pos ≡ₚ heap.
Proof.
  unfold _siftup. destruct (heap !! pos) as [newitem|] eqn:E; [|done].
  destruct (siftup_loop _ _ _ _ _) as [heap' pos'] eqn:Hloop.
  apply siftup_loop_perm in Hloop as [Hlen Hperm];
    [|eauto using lookup_lt_Some|done].
  rewrite siftdown_perm, Hperm. by rewrite list_insert_id.
Qed.

Lemma heappush_perm (heap : list A) item :
  heappush lt heap item ≡ₚ item :: heap.
Proof.
  unfold heappush. rewrite siftdown_perm.
  by rewrite (comm (++)).
Qed.

Lemma heappop_perm (heap : list A) :
  heap ≠ [] →
  ∃ x heap', heappop lt heap = Ok (x, heap') ∧ heap ≡ₚ x :: heap'.
Proof.
  intros Hne. unfold heappop.
  destruct (reverse heap) as [|lastelt rest] eqn:Hrev.
  { apply (f_equal reverse) in Hrev. by rewrite reverse_involutive in Hrev. }
  assert (Hheap : heap = reverse rest ++ [lastelt]).
  { rewrite <- (reverse_involutive heap), Hrev. by rewrite reverse_cons. }
  destruct (reverse rest) as [|returnitem tl].
  - eexists _, _. split; [done|]. by rewrite Hheap.
  - eexists _, _. split; [done|]. rewrite siftup_perm, Hheap. simpl.
    constructor. by rewrite (comm (++)).
Qed.

Lemma heapify_perm (x : list A) : heapify lt x ≡ₚ x.
Proof.
  unfold heapify. generalize (reverse (seq 0 (length x / 2))).
  intros positions. revert x.
  induction positions as [|i positions IH]; intros x; simpl; [done|].
  by rewrite IH, siftup_perm.
Qed.
(** The fuel of the loops is enough: more of it changes nothing. *)
Lemma siftdown_loop_fuel fuel fuel' (heap : list A) startpos pos newitem :
  (pos ≤ fuel)%nat → (pos ≤ fuel')%nat →
  siftdown_loop lt fuel heap startpos pos newitem
  = siftdown_loop lt fuel' heap startpos pos newitem.
Proof.
  revert fuel' heap pos.
  induction fuel as [|fuel IH]; intros [|fuel'] heap pos Hf Hf';
    cbn [siftdown_loop]; try done.
  - assert (pos = 0%nat) as -> by lia.
    by destruct (Nat.ltb_spec startpos 0); [lia|].
  - assert (pos = 0%nat) as -> by lia.
    by destruct (Nat.ltb_spec startpos 0); [lia|].
  - destruct (Nat.ltb_spec startpos pos) as [Hlt|_]; [|done].
    destruct (heap !! ((pos - 1) / 2)%nat) as [parent|]; [|done].
    destruct (lt newitem parent); [|done].
    assert (((pos - 1) / 2 < pos)%nat)
      by (apply Nat.Div0.div_lt_upper_bound; lia).
    apply IH; lia.
Qed.

Lemma siftup_loop_fuel fuel fuel' (heap : list A) endpos pos :
  (endpos - pos ≤ fuel)%nat → (endpos - pos ≤ fuel')%nat →
  siftup_loop lt fuel heap endpos pos = siftup_loop lt fuel' heap endpos pos.
Proof.
  revert fuel' heap pos.
  induction fuel as [|fuel IH]; intros [|fuel'] heap pos Hf Hf';
    cbn [siftup_loop]; try done.
  - by destruct (Nat.ltb_spec (2 * pos + 1) endpos); [lia|].
  - by destruct (Nat.ltb_spec (2 * pos + 1) endpos); [lia|].
  - destruct (Nat.ltb_spec (2 * pos + 1) endpos) as [Hlt|_]; [|done].
    set (c := if (2 * pos + 1 + 1 <? endpos)%nat
              then match heap !! (2 * pos + 1)%nat,
                         heap !! (2 * pos + 1 + 1)%nat with
                   | Some l, Some r =>
                       if lt l r then (2 * pos + 1)%nat
                       else (2 * pos + 1 + 1)%nat
                   | _, _ => (2 * pos + 1)%nat
                   end
              else (2 * pos + 1)%nat).
    assert (Hc : (pos < c)%nat).
    { unfold c. destruct (2 * pos + 1 + 1 <? endpos)%nat; [|lia].
      destruct (heap !! (2 * pos + 1)%nat) as [a|]; [|lia].
      destruct (heap !! (2 * pos + 1 + 1)%nat) as [b|]; [|lia].
      destruct (lt a b); lia. }
    destruct (heap !! c) as [child|]; [|done]. apply IH; lia.
Qed.
End heapq_perm.

(** ** The heap operations keep the heap ordered *)

Section heapq_order.
Context {A : Type} (lt : A → A → bool).

Hypothesis lt_le : ∀ a b, lt a b = true → le lt a b.
Hypothesis le_trans : ∀ a b c, le lt a b → le lt b c → le lt a c.

Lemma le_refl a : le lt a a.
Proof.
  unfold le. destruct (lt a a) eqn:E; [|done].
  pose proof (lt_le _ _ E) as H. unfold le in H. congruence.
Qed.

Lemma desc_ge s p : desc s p → (s ≤ p)%nat.
Proof. induction 1 as [|p j _ IH [-> | ->]]; lia. Qed.

Lemma child_parent pos : (0 < pos)%nat → child pos ((pos - 1) / 2).
Proof.
  intros Hpos. unfold child.
  pose proof (Nat.div_mod_eq (pos - 1) 2) as Hdm.
  pose proof (Nat.mod_upper_bound (pos - 1) 2 ltac:(lia)) as Hm.
  lia.
Qed.

Lemma child_inj j i i' : child j i → child j i' → i = i'.
Proof. unfold child. lia. Qed.

Lemma desc_parent s p pp : desc s p → p ≠ s → child p pp → desc s pp.
Proof.
  intros Hd Hne Hc. destruct Hd as [|p' j Hd Hc']; [done|].
  by rewrite (child_inj _ _ _ Hc Hc').
Qed.

Lemma desc_0 p : desc 0 p.
Proof.
  induction (lt_wf p) as [p _ IH]. destruct p as [|p]; [constructor|].
  apply (desc_child 0 ((S p - 1) / 2)).
  - apply IH. apply Nat.Div0.div_lt_upper_bound. lia.
  - apply child_parent. lia.
Qed.

Lemma hole_inv_fill s heap pos x :
  hole_inv lt s heap pos → hole_inv lt s (<[pos := x]> heap) pos.
Proof.
  intros [Hd Hr Hs]. split; [done|..].
  - intros i j a b Hi Hc Hip Hjp. rewrite !list_lookup_insert_ne by done.
    by apply Hr.
  - intros pp j a b Hlt Hcp Hcj.
    rewrite !list_lookup_insert_ne by (unfold child in *; lia).
    by apply Hs.
Qed.

(** [_siftdown]: the hole moves up until [newitem] fits. *)
Lemma siftdown_loop_heap fuel heap s pos newitem :
  (pos ≤ fuel)%nat → (pos < length heap)%nat →
  hole_inv lt s heap pos →
  (∀ j b, child j pos → heap !! j = Some b → le lt newitem b) →
  heap_from lt s (siftdown_loop lt fuel heap s pos newitem).
Proof.
  revert heap pos.
  induction fuel as [|fuel IH]; intros heap pos Hfuel Hpos Hinv Hnew;
    cbn [siftdown_loop].
  - (* out of fuel: the hole is at the root *)
    assert (pos = 0%nat) as -> by lia.
    pose proof (desc_ge _ _ (hole_desc _ _ _ _ Hinv)) as Hs.
    assert (s = 0%nat) as -> by lia.
    intros i j a b _ Hc Ha Hb.
    destruct (decide (i = 0%nat)) as [->|Hi].
    + rewrite list_lookup_insert_eq in Ha by done. injection Ha as <-.
      rewrite list_lookup_insert_ne in Hb by (unfold child in Hc; lia).
      by apply (Hnew j).
    + rewrite list_lookup_insert_ne in Ha by done.
      rewrite list_lookup_insert_ne in Hb by (unfold child in Hc; lia).
      apply (hole_rest _ _ _ _ Hinv i j); try done; [lia|].
      unfold child in Hc; lia.
  - pose proof (desc_ge _ _ (hole_desc _ _ _ _ Hinv)) as Hs.
    assert (Hfill : ∀ parent_ok : (s < pos)%nat →
                      ∀ pp a, child pos pp → heap !! pp = Some a → le lt a newitem,
              heap_from lt s (<[pos := newitem]> heap)).
    { intros Hparent i j a b Hi Hc Ha Hb.
      destruct (decide (i = pos)) as [->|Hip].
      - rewrite list_lookup_insert_eq in Ha by done. injection Ha as <-.
        rewrite list_lookup_insert_ne in Hb by (unfold child in Hc; lia).
        by apply (Hnew j).
      - rewrite list_lookup_insert_ne in Ha by done.
        destruct (decide (j = pos)) as [->|Hjp].
        + rewrite list_lookup_insert_eq in Hb by done. injection Hb as <-.
          apply (Hparent ltac:(unfold child in Hc; lia) i); done.
        + rewrite list_lookup_insert_ne in Hb by done.
          by apply (hole_rest _ _ _ _ Hinv i j). }
    destruct (Nat.ltb_spec s pos) as [Hlt|Hge]; [|apply Hfill; lia].
    pose proof (child_parent pos ltac:(lia)) as Hcp.
    set (pp := ((pos - 1) / 2)%nat) in *.
    assert (Hpp : (pp < pos)%nat) by (unfold child in Hcp; lia).
    destruct (lookup_lt_is_Some_2 heap pp) as [parent Hparent]; [lia|].
    rewrite Hparent. destruct (lt newitem parent) eqn:Hcmp.
    + (* the parent comes down, the hole goes up *)
      assert (Hdpp : desc s pp).
      { apply (desc_parent s pos); [apply Hinv|lia|done]. }
      pose proof (desc_ge _ _ Hdpp) as Hspp.
      apply IH; [lia|rewrite length_insert; lia| |].
      * split; [done|..].
        -- intros i j a b Hi Hc Hip Hjp Ha Hb.
           assert (j ≠ pos ∨ i = pp) as Hj.
           { destruct (decide (j = pos)) as [->|]; [|by left].
             right. by apply (child_inj pos). }
           destruct Hj as [Hj|Hj]; [|done].
           rewrite list_lookup_insert_ne in Hb by done.
           destruct (decide (i = pos)) as [->|Hi'].
           ++ rewrite list_lookup_insert_eq in Ha by done. injection Ha as <-.
              by apply (hole_skip _ _ _ _ Hinv pp j).
           ++ rewrite list_lookup_insert_ne in Ha by done.
              by apply (hole_rest _ _ _ _ Hinv i j).
        -- intros g j a b Hlt' Hcg Hcj Ha Hb.
           assert (Hg : g ≠ pos ∧ g ≠ pp ∧ (s ≤ g)%nat).
           { pose proof (desc_ge _ _ (desc_parent s pp g Hdpp ltac:(lia) Hcg)).
             unfold child in *. lia. }
           destruct Hg as (Hg1 & Hg2 & Hg3).
           rewrite list_lookup_insert_ne in Ha by done.
           apply (le_trans _ parent).
           { apply (hole_rest _ _ _ _ Hinv g pp); [done|done|done|lia|done|done]. }
           destruct (decide (j = pos)) as [->|Hjp].
           ++ rewrite list_lookup_insert_eq in Hb by done. injection Hb as <-.
              apply le_refl.
           ++ rewrite list_lookup_insert_ne in Hb by done.
              apply (hole_rest _ _ _ _ Hinv pp j); try done. lia.
      * intros j b Hc Hb. apply (le_trans _ parent); [by apply lt_le|].
        destruct (decide (j = pos)) as [->|Hjp].
        -- rewrite list_lookup_insert_eq in Hb by done. injection Hb as <-.
           apply le_refl.
        -- rewrite list_lookup_insert_ne in Hb by done.
           apply (hole_rest _ _ _ _ Hinv pp j); try done. lia.
    + apply Hfill. intros _ pp' a Hc Ha.
      rewrite (child_inj _ _ _ Hc Hcp) in Ha.
      rewrite Hparent in Ha. injection Ha as <-. exact Hcmp.
Qed.

(** [_siftup]: the hole goes down to a leaf, taking the smaller child up
    at every step. *)
Lemma siftup_loop_heap fuel heap endpos s pos heap' pos' :
  endpos = length heap → (pos < endpos)%nat → (endpos - pos ≤ fuel)%nat →
  hole_inv lt s heap pos →
  siftup_loop lt fuel heap endpos pos = (heap', pos') →
  length heap' = endpos ∧ (pos' < endpos)%nat ∧ hole_inv lt s heap' pos'
  ∧ ∀ j, child j pos' → heap' !! j = None.
Proof.
  revert heap pos.
  induction fuel as [|fuel IH]; intros heap pos Hend Hpos Hfuel Hinv Hloop;
    [lia|].
  cbn [siftup_loop] in Hloop.
  destruct (Nat.ltb_spec (2 * pos + 1) endpos) as [Hchild|Hleaf].
  2:{ injection Hloop as <- <-. split; [done|]. split; [done|].
      split; [done|]. intros j Hc. apply lookup_ge_None.
      unfold child in Hc. lia. }
  set (c := if (2 * pos + 1 + 1 <? endpos)%nat
            then match heap !! (2 * pos + 1)%nat,
                       heap !! (2 * pos + 1 + 1)%nat with
                 | Some l, Some r =>
                     if lt l r then (2 * pos + 1)%nat
                     else (2 * pos + 1 + 1)%nat
                 | _, _ => (2 * pos + 1)%nat
                 end
            else (2 * pos + 1)%nat) in *.
  assert (Hc : child c pos ∧ (c < endpos)%nat
               ∧ ∀ chd j b, heap !! c = Some chd → child j pos → j ≠ c →
                   heap !! j = Some b → le lt chd b).
  { clear Hloop. unfold c, child.
    destruct (Nat.ltb_spec (2 * pos + 1 + 1) endpos) as [Hr|Hr].
    - destruct (lookup_lt_is_Some_2 heap (2 * pos + 1)) as [l Hl]; [lia|].
      destruct (lookup_lt_is_Some_2 heap (2 * pos + 1 + 1)) as [r Hr']; [lia|].
      rewrite Hl, Hr'. destruct (lt l r) eqn:Hcmp.
      + split; [lia|]. split; [lia|]. intros chd j b Hchd [->| ->] Hne Hb;
          [lia|].
        replace (2 * pos + 2)%nat with (2 * pos + 1 + 1)%nat in Hb by lia.
        rewrite Hl in Hchd. rewrite Hr' in Hb. simplify_eq. by apply lt_le.
      + split; [lia|]. split; [lia|]. intros chd j b Hchd [->| ->] Hne Hb;
          [|lia].
        rewrite Hr' in Hchd. rewrite Hl in Hb. simplify_eq. exact Hcmp.
    - split; [lia|]. split; [lia|]. intros chd j b Hchd [->| ->] Hne Hb;
        [lia|].
      apply lookup_lt_Some in Hb. lia. }
  destruct Hc as (Hcpos & Hclt & Hsmall).
  destruct (lookup_lt_is_Some_2 heap c) as [chd Hchd]; [lia|].
  rewrite Hchd in Hloop.
  pose proof (desc_ge _ _ (hole_desc _ _ _ _ Hinv)) as Hs.
  assert (Hcgt : (pos < c)%nat) by (unfold child in Hcpos; lia).
  apply IH in Hloop; [done|by rewrite length_insert|lia|lia|].
  split.
  - by apply (desc_child s pos); [apply Hinv|].
  - intros i j a b Hi Hcj Hic Hjc Ha Hb.
    destruct (decide (i = pos)) as [->|Hip].
    + rewrite list_lookup_insert_eq in Ha by lia. injection Ha as <-.
      rewrite list_lookup_insert_ne in Hb by (unfold child in Hcj; lia).
      by apply (Hsmall chd j).
    + rewrite list_lookup_insert_ne in Ha by done.
      destruct (decide (j = pos)) as [->|Hjp].
      * rewrite list_lookup_insert_eq in Hb by lia. injection Hb as <-.
        apply (hole_skip _ _ _ _ Hinv i c); try done.
        unfold child in Hcj. lia.
      * rewrite list_lookup_insert_ne in Hb by done.
        by apply (hole_rest _ _ _ _ Hinv i j).
  - intros pp j a b _ Hcp Hcj Ha Hb.
    rewrite (child_inj _ _ _ Hcp Hcpos) in Ha.
    rewrite list_lookup_insert_eq in Ha by lia. injection Ha as <-.
    rewrite list_lookup_insert_ne in Hb by (unfold child in Hcj; lia).
    apply (hole_rest _ _ _ _ Hinv c j); try done; [lia|lia|].
    unfold child in Hcj. lia.
Qed.

Lemma siftup_heap heap s :
  (s < length heap)%nat → heap_from lt (S s) heap →
  heap_from lt s (_siftup lt heap s).
Proof.
  intros Hs Hheap. unfold _siftup.
  destruct (lookup_lt_is_Some_2 heap s Hs) as [newitem Hnew]. rewrite Hnew.
  destruct (siftup_loop _ _ _ _ _) as [heap' pos'] eqn:Hloop.
  apply (siftup_loop_heap _ _ _ s) in Hloop
    as (Hlen & Hpos' & Hinv & Hleaf); [|done|done|lia|].
  - unfold _siftdown. rewrite list_lookup_insert_eq by lia.
    apply siftdown_loop_heap; [done|rewrite length_insert; lia| |].
    + by apply hole_inv_fill.
    + intros j b Hc Hb.
      rewrite list_lookup_insert_ne in Hb by (unfold child in Hc; lia).
      by rewrite (Hleaf j Hc) in Hb.
  - split; [constructor|..].
    + intros i j a b Hi Hc Hne _. apply Hheap; [lia|done].
    + lia.
Qed.

Lemma heapify_heap (x : list A) : heap_from lt 0 (heapify lt x).
Proof.
  unfold heapify.
  assert (Hstart : heap_from lt (length x / 2) x).
  { intros i j a b Hi Hc _ Hb. apply lookup_lt_Some in Hb.
    pose proof (Nat.div_mod_eq (length x) 2) as Hdm.
    pose proof (Nat.mod_upper_bound (length x) 2 ltac:(lia)) as Hm.
    unfold child in Hc. lia. }
  assert (Hk : (length x / 2 ≤ length x)%nat)
    by (apply Nat.Div0.div_le_upper_bound; lia).
  revert Hstart Hk. generalize (length x / 2)%nat as k. intros k. revert x.
  induction k as [|k IH]; intros x Hheap Hk; [done|].
  rewrite seq_S, reverse_app. simpl. apply IH.
  - apply siftup_heap; [lia|done].
  - rewrite (Permutation_length (siftup_perm lt x k)). lia.
Qed.

Lemma heappush_heap (heap : list A) item :
  heap_from lt 0 heap → heap_from lt 0 (heappush lt heap item).
Proof.
  intros Hheap. unfold heappush, _siftdown.
  rewrite length_app. simpl.
  replace (length heap + 1 - 1)%nat with (length heap) by lia.
  rewrite lookup_app_r, Nat.sub_diag by done. simpl.
  apply siftdown_loop_heap; [done|rewrite length_app; simpl; lia| |].
  - split; [apply desc_0|..].
    + intros i j a b _ Hc Hi Hj Ha Hb.
      apply lookup_app_Some in Ha as [Ha|[Hge Ha]].
      2:{ apply lookup_lt_Some in Ha. simpl in Ha. lia. }
      apply lookup_app_Some in Hb as [Hb|[Hge Hb]].
      2:{ apply lookup_lt_Some in Hb. simpl in Hb. lia. }
      apply (Hheap i j); [lia|done..].
    + intros pp j a b _ _ Hc _ Hb. apply lookup_lt_Some in Hb.
      rewrite length_app in Hb. simpl in Hb. unfold child in Hc. lia.
  - intros j b Hc Hb. apply lookup_lt_Some in Hb.
    rewrite length_app in Hb. simpl in Hb. unfold child in Hc. lia.
Qed.

(** The root of a heap is a least item. *)
Lemma heap_root_least (heap : list A) r :
  heap_from lt 0 heap → heap !! 0%nat = Some r → ∀ y, y ∈ heap → le lt r y.
Proof.
  intros Hheap Hr y [i Hi]%list_elem_of_lookup. revert y Hi.
  induction (lt_wf i) as [i _ IH]; intros y Hi.
  destruct i as [|i]; [rewrite Hr in Hi; injection Hi as <-; apply le_refl|].
  pose proof (child_parent (S i) ltac:(lia)) as Hc.
  set (pp := ((S i - 1) / 2)%nat) in *.
  assert (Hpp : (pp < S i)%nat) by (unfold child in Hc; lia).
  destruct (lookup_lt_is_Some_2 heap pp) as [a Ha].
  { apply lookup_lt_Some in Hi. lia. }
  apply (le_trans _ a); [by apply (IH pp)|].
  apply (Hheap pp (S i)); [lia|done..].
Qed.

Lemma heappop_heap (heap : list A) x heap' :
  heap_from lt 0 heap → heappop lt heap = Ok (x, heap') →
  heap_from lt 0 heap' ∧ ∀ y, y ∈ heap → le lt x y.
Proof.
  intros Hheap Hpop. unfold heappop in Hpop.
  destruct (reverse heap) as [|lastelt rest] eqn:Hrev; [done|].
  assert (Heq : heap = reverse rest ++ [lastelt]).
  { rewrite <- (reverse_involutive heap), Hrev. by rewrite reverse_cons. }
  destruct (reverse rest) as [|returnitem tl].
  - injection Hpop as <- <-. split.
    + intros i j a b _ _ Ha. done.
    + subst heap. intros y ->%list_elem_of_singleton. apply le_refl.
  - injection Hpop as <- <-. split.
    + apply siftup_heap; [simpl; lia|].
      intros i j a b Hi Hc Ha Hb. apply (Hheap i j); [lia|done|..].
      * destruct i as [|i]; [lia|]. subst heap. simpl in *.
        by apply lookup_app_l_Some.
      * destruct j as [|j]; [unfold child in Hc; lia|]. subst heap.
        simpl in *. by apply lookup_app_l_Some.
    + apply heap_root_least; [done|by subst heap].
Qed.
End heapq_order.

(** ** Python's order on nested lists is a strict total order *)

Section strict_total.
Context {A : Type} (eqb ltb : A → A → bool) (Hst : strict_total eqb ltb).

Lemma st_reflect a b : reflect (a = b) (eqb a b).
Proof.
  destruct (eqb a b) eqn:E; constructor.
  - by apply (st_eq _ _ Hst).
  - intros Heq. apply (st_eq _ _ Hst) in Heq. congruence.
Qed.

Lemma st_asym a b : ltb a b = true → ltb b a = false.
Proof.
  intros Hab. destruct (ltb b a) eqn:Hba; [|done].
  pose proof (st_trans _ _ Hst _ _ _ Hab Hba) as Haa.
  by rewrite (st_irrefl _ _ Hst) in Haa.
Qed.

(** [not b < a] and [not c < b] give [not c < a]. *)
Lemma st_le_trans a b c :
  ltb b a = false → ltb c b = false → ltb c a = false.
Proof.
  intros Hba Hcb. destruct (ltb c a) eqn:Hca; [|done].
  destruct (st_total _ _ Hst a b) as [Hab| [->|Hab]]; [|congruence..].
  pose proof (st_trans _ _ Hst _ _ _ Hca Hab). congruence.
Qed.

Lemma seq_strict_total : strict_total (seq_eq eqb) (seq_lt eqb ltb).
Proof.
  split.
  - intros a. induction a as [|x a IH]; intros [|y b]; simpl; try done.
    rewrite andb_true_iff, IH. destruct (st_reflect x y) as [->|Hne].
    + split; [by intros [_ ->]|]. intros Heq. by injection Heq as ->.
    + split; [by intros [? _]|]. intros Heq. by injection Heq as -> _.
  - intros a. induction a as [|x a IH]; simpl; [done|].
    by destruct (st_reflect x x).
  - intros a. induction a as [|x a IH]; intros [|y b] [|z c]; simpl;
      try done.
    destruct (st_reflect x y) as [->|Hxy]; destruct (st_reflect y z) as [->|Hyz].
    + apply IH.
    + done.
    + destruct (st_reflect x z); done.
    + intros Hlt1 Hlt2. destruct (st_reflect x z) as [->|Hxz].
      * pose proof (st_asym _ _ Hlt1). congruence.
      * by apply (st_trans _ _ Hst x y z).
  - intros a. induction a as [|x a IH]; intros [|y b]; simpl; auto.
    destruct (st_reflect x y) as [->|Hxy].
    + destruct (st_reflect y y); [|done].
      destruct (IH b) as [?|[->|?]]; auto.
    + destruct (st_reflect y x) as [->|Hyx]; [done|].
      destruct (st_total _ _ Hst x y) as [?|[?|?]]; auto.
Qed.

Context {B : Type} (eqb' ltb' : B → B → bool) (Hst' : strict_total eqb' ltb').

(** Two-element lists [[a, b]], and [[weight, pairs...]]. *)
Lemma lex_strict_total :
  strict_total (λ p q : A * B, eqb p.1 q.1 && eqb' p.2 q.2)
    (λ p q : A * B, if eqb p.1 q.1 then ltb' p.2 q.2 else ltb p.1 q.1).
Proof.
  split.
  - intros [a b] [a' b']. simpl. rewrite andb_true_iff.
    rewrite (st_eq _ _ Hst), (st_eq _ _ Hst'). split.
    + by intros [-> ->].
    + intros Heq. by injection Heq as -> ->.
  - intros [a b]. simpl. destruct (st_reflect a a); [|done].
    apply (st_irrefl _ _ Hst').
  - intros [a b] [a' b'] [a'' b'']. simpl.
    destruct (st_reflect a a') as [->|Hxy];
      destruct (st_reflect a' a'') as [->|Hyz].
    + apply (st_trans _ _ Hst').
    + done.
    + destruct (st_reflect a a''); done.
    + intros Hlt1 Hlt2. destruct (st_reflect a a'') as [->|Hxz].
      * pose proof (st_asym _ _ Hlt1). congruence.
      * by apply (st_trans _ _ Hst a a' a'').
  - intros [a b] [a' b']. simpl.
    destruct (st_reflect a a') as [->|Hxy].
    + destruct (st_reflect a' a'); [|done].
      destruct (st_total _ _ Hst' b b') as [?|[->|?]]; auto.
    + destruct (st_reflect a' a) as [->|Hyx]; [done|].
      destruct (st_total _ _ Hst a a') as [?|[?|?]]; auto.
Qed.
End strict_total.

Lemma N_strict_total : strict_total N.eqb N.ltb.
Proof.
  split.
  - apply N.eqb_eq.
  - apply N.ltb_irrefl.
  - intros a b c. rewrite !N.ltb_lt. lia.
  - intros a b. rewrite !N.ltb_lt. lia.
Qed.

(** ** Huffman coding: the code table *)

Section huffman_table.
Import HuffmanCoding.
Local Open Scope Q_scope.

Lemma kraft_sum_cons p t :
  kraft_sum (p :: t) = 2 ^ (- Z.of_nat (length p.2)) + kraft_sum t.
Proof. reflexivity. Qed.

Lemma kraft_sum_app t1 t2 :
  kraft_sum (t1 ++ t2) == kraft_sum t1 + kraft_sum t2.
Proof.
  induction t1 as [|p t1 IH].
  - simpl. by rewrite Qplus_0_l.
  - rewrite <- app_comm_cons, !kraft_sum_cons, IH. by rewrite Qplus_assoc.
Qed.

Lemma pow2_neg_succ n :
  2 ^ (- Z.of_nat (S n)) == (1 # 2) * 2 ^ (- Z.of_nat n).
Proof.
  replace (- Z.of_nat (S n))%Z with (- (1) + - Z.of_nat n)%Z by lia.
  rewrite Qpower_plus by done. done.
Qed.

Lemma kraft_sum_prepend bit t :
  kraft_sum (prepend bit t) == (1 # 2) * kraft_sum t.
Proof.
  induction t as [|[ch code] t IH]; [done|].
  change (prepend bit ((ch, code) :: t))
    with ((ch, bit :: code) :: prepend bit t).
  rewrite !kraft_sum_cons, IH.
  change (length (ch, bit :: code).2) with (S (length code)).
  rewrite pow2_neg_succ. simpl snd. ring.
Qed.

Lemma prepend_fst bit t : (prepend bit t).*1 = t.*1.
Proof. induction t as [|[ch code] t IH]; simpl; by f_equal. Qed.

Lemma elem_of_prepend bit t s c :
  (s, c) ∈ prepend bit t ↔ ∃ c', c = bit :: c' ∧ (s, c') ∈ t.
Proof.
  unfold prepend. rewrite list_elem_of_fmap. split.
  - intros ([s' c'] & Heq & Hin). simplify_eq. eauto.
  - intros (c' & -> & Hin). by exists (s, c').
Qed.

Lemma symbols_perm heap1 heap2 :
  heap1 ≡ₚ heap2 → symbols heap1 ≡ₚ symbols heap2.
Proof. intros Hp. unfold symbols. by rewrite Hp. Qed.

Lemma heap_ok_perm heap1 heap2 :
  heap1 ≡ₚ heap2 → heap_ok heap1 → heap_ok heap2.
Proof.
  intros Hp [Hall Hnd]. split.
  - by rewrite <- Hp.
  - by rewrite <- (symbols_perm _ _ Hp).
Qed.

Lemma merged_ok w a b :
  item_ok a → item_ok b → NoDup (a.2.*1 ++ b.2.*1) →
  item_ok (w, prepend 48%N a.2 ++ prepend 49%N b.2).
Proof.
  intros Ha Hb Hnd. apply list.NoDup_app in Hnd as (Hnda & Hdisj & Hndb).
  split; simpl.
  - destruct a as [wa [|p pa]]; [by destruct Ha|done].
  - intros s1 c1 s2 c2 H1 H2 Hne Hpre.
    apply elem_of_app in H1, H2.
    rewrite !elem_of_prepend in H1, H2.
    destruct H1 as [(c1' & -> & H1)|(c1' & -> & H1)],
             H2 as [(c2' & -> & H2)|(c2' & -> & H2)].
    + apply (ok_prefix_free _ Ha s1 c1' s2 c2'); [done..|].
      destruct Hpre as [k Hk]. simplify_eq/=. by exists k.
    + destruct Hpre as [k Hk]. simplify_eq/=.
    + destruct Hpre as [k Hk]. simplify_eq/=.
    + apply (ok_prefix_free _ Hb s1 c1' s2 c2'); [done..|].
      destruct Hpre as [k Hk]. simplify_eq/=. by exists k.
  - rewrite kraft_sum_app, !kraft_sum_prepend.
    rewrite (ok_kraft _ Ha), (ok_kraft _ Hb). done.
  - right. apply Forall_app. split; apply list.Forall_forall;
      intros [s c] Hin; apply elem_of_prepend in Hin as (c' & -> & _);
      done.
Qed.

Lemma heappop_ok heap :
  heap ≠ [] → heap_ok heap →
  ∃ x heap', heappop item_lt heap = Ok (x, heap') ∧ heap ≡ₚ x :: heap'.
Proof. intros Hne _. by apply heappop_perm. Qed.

(** One round of [build_codes]. *)
Lemma merge_ok heap :
  (1 < length heap)%nat → heap_ok heap →
  ∃ heap', merge heap = Ok heap' ∧ heap_ok heap'
           ∧ S (length heap') = length heap
           ∧ symbols heap' ≡ₚ symbols heap.
Proof.
  intros Hlen Hok. unfold merge.
  destruct (heappop_perm item_lt heap) as (a & heap1 & -> & Hp1).
  { intros ->. simpl in Hlen. lia. }
  rewrite bind_Ok.
  destruct (heappop_perm item_lt heap1) as (b & heap2 & -> & Hp2).
  { intros ->. apply Permutation_length in Hp1. simpl in Hp1. lia. }
  rewrite bind_Ok. eexists. split; [done|].
  assert (Hp : heap ≡ₚ a :: b :: heap2) by (by rewrite Hp1, Hp2).
  pose proof (heap_ok_perm _ _ Hp Hok) as [Hall Hnd].
  apply list.Forall_cons in Hall as [Ha Hall].
  apply list.Forall_cons in Hall as [Hb Hall].
  unfold symbols in Hnd. simpl in Hnd. rewrite (assoc_L (++)) in Hnd.
  apply list.NoDup_app in Hnd as (Hndab & Hdisj & Hnd2).
  set (m := ((a.1 + b.1)%N, prepend 48%N a.2 ++ prepend 49%N b.2)).
  assert (Hsym : symbols (m :: heap2) = symbols (a :: b :: heap2)).
  { unfold symbols. simpl. rewrite fmap_app, !prepend_fst.
    by rewrite (assoc_L (++)). }
  split; [|split].
  - apply (heap_ok_perm (m :: heap2)).
    { symmetry. apply heappush_perm. }
    split.
    + constructor; [by apply merged_ok|done].
    + rewrite Hsym. unfold symbols. simpl. rewrite (assoc_L (++)).
      by apply list.NoDup_app.
  - rewrite (Permutation_length (heappush_perm item_lt heap2 m)).
    rewrite (Permutation_length Hp). done.
  - etrans; [apply symbols_perm, heappush_perm|].
    fold m. rewrite Hsym. symmetry. by apply symbols_perm.
Qed.

(** The loop of [build_codes] ends on a heap of one item. *)
Lemma build_codes_loop_ok fuel heap :
  (length heap ≤ S fuel)%nat → heap ≠ [] → heap_ok heap →
  ∃ root, build_codes_loop fuel heap = Ok [root] ∧ item_ok root
          ∧ root.2.*1 ≡ₚ symbols heap.
Proof.
  revert heap. induction fuel as [|fuel IH]; intros heap Hlen Hne Hok.
  - destruct heap as [|root [|??]]; [done| |simpl in Hlen; lia].
    exists root. destruct Hok as [Hall _]. apply list.Forall_cons in Hall as [? _].
    split; [done|]. split; [done|].
    unfold symbols. simpl. by rewrite (right_id_L [] (++)).
  - cbn [build_codes_loop].
    destruct (Nat.ltb_spec 1 (length heap)) as [Hlt|Hlt].
    + destruct (merge_ok heap Hlt Hok) as (heap' & -> & Hok' & Hlen' & Hsym).
      rewrite bind_Ok.
      destruct (IH heap') as (root & Hloop & Hroot & Hsym'); [lia| |done|].
      { intros ->. simpl in Hlen'. lia. }
      exists root. by rewrite Hsym' , Hsym.
    + destruct heap as [|root [|??]]; [done| |simpl in Hlt; lia].
      exists root. destruct Hok as [Hall _].
      apply list.Forall_cons in Hall as [? _].
      split; [done|]. split; [done|].
      unfold symbols. simpl. by rewrite (right_id_L [] (++)).
Qed.
(** The frequency counter has one key per symbol of the text. *)
Lemma count_char_keys ch (freq : Counter) :
  (count_char ch freq).*1
  = if decide (ch ∈ freq.*1) then freq.*1 else freq.*1 ++ [ch].
Proof.
  induction freq as [|[c n] freq IH].
  - cbn [count_char fmap list_fmap fst app].
    case_decide as Hin; [by apply elem_of_nil in Hin|done].
  - cbn [count_char]. destruct (decide (c = ch)) as [->|Hne].
    + rewrite !fmap_cons. cbn [fst]. rewrite decide_True; [done|]. by left.
    + rewrite !fmap_cons, IH. cbn [fst].
      destruct (decide (ch ∈ freq.*1)) as [Hin|Hnin].
      * rewrite decide_True; [done|]. by right.
      * rewrite decide_False; [done|].
        intros [?|?]%elem_of_cons; congruence.
Qed.

Lemma build_frequency_keys text (freq : Counter) :
  NoDup freq.*1 →
  let freq' := foldl (λ freq ch, count_char ch freq) freq text in
  NoDup freq'.*1 ∧ ∀ ch, ch ∈ freq'.*1 ↔ ch ∈ freq.*1 ∨ ch ∈ text.
Proof.
  revert freq. induction text as [|c text IH]; intros freq Hnd; simpl.
  - split; [done|]. intros ch. rewrite elem_of_nil. tauto.
  - destruct (IH (count_char c freq)) as [Hnd' Hkeys].
    + rewrite count_char_keys. case_decide; [done|].
      apply list.NoDup_app. split; [done|]. split.
      * intros x Hx ->%list_elem_of_singleton. done.
      * apply NoDup_singleton.
    + split; [done|]. intros ch. rewrite Hkeys, count_char_keys.
      rewrite elem_of_cons. case_decide as Hc.
      * split; [tauto|]. intros [?|[->|?]]; tauto.
      * rewrite elem_of_app, list_elem_of_singleton. tauto.
Qed.

Lemma leaf_ok p : item_ok (leaf p).
Proof.
  destruct p as [ch weight]. split; simpl.
  - done.
  - intros s1 c1 s2 c2 H1%list_elem_of_singleton H2%list_elem_of_singleton.
    congruence.
  - done.
  - left. by exists ch.
Qed.

Lemma symbols_leaves (freq : Counter) : symbols (map leaf freq) = freq.*1.
Proof.
  unfold symbols. induction freq as [|[ch weight] freq IH]; [done|].
  simpl. by f_equal.
Qed.

Lemma build_heap_ok (freq : Counter) :
  NoDup freq.*1 →
  heap_ok (build_heap freq)
  ∧ symbols (build_heap freq) ≡ₚ freq.*1
  ∧ length (build_heap freq) = length freq.
Proof.
  intros Hnd.
  assert (Hp : build_heap freq ≡ₚ map leaf freq) by apply heapify_perm.
  split; [|split].
  - apply (heap_ok_perm (map leaf freq)); [done|]. split.
    + apply Forall_map, list.Forall_forall. intros p _. apply leaf_ok.
    + by rewrite symbols_leaves.
  - by rewrite (symbols_perm _ _ Hp), symbols_leaves.
  - by rewrite (Permutation_length Hp), length_map.
Qed.

(** [dict] of pairs with distinct keys is the pairs themselves. *)
Lemma dict_set_fresh {V} k (v : V) d :
  k ∉ d.*1 → dict_set k v d = d ++ [(k, v)].
Proof.
  induction d as [|[k' v'] d IH]; simpl; [done|].
  intros Hk. rewrite not_elem_of_cons in Hk. destruct Hk as [Hne Hk].
  rewrite decide_False by done. by rewrite IH.
Qed.

Lemma dict_foldl {V} (acc pairs : list (char * V)) :
  NoDup (acc ++ pairs).*1 →
  foldl (λ d '(k, v), dict_set k v d) acc pairs = acc ++ pairs.
Proof.
  revert acc. induction pairs as [|[k v] pairs IH]; intros acc Hnd; simpl.
  - by rewrite (right_id_L [] (++)).
  - rewrite dict_set_fresh.
    + rewrite IH; rewrite <- (assoc_L (++)); done.
    + rewrite fmap_app in Hnd. apply list.NoDup_app in Hnd as (_ & Hd & _).
      intros Hin. apply (Hd k Hin). by left.
Qed.

Lemma dict_NoDup {V} (pairs : list (char * V)) :
  NoDup pairs.*1 → dict pairs = pairs.
Proof. intros Hnd. unfold dict. by rewrite dict_foldl. Qed.

(** What [compress] gets from [build_codes] on a text that is not
    empty. *)
Lemma build_codes_spec text :
  text ≠ [] →
  ∃ root,
    build_codes (build_heap (build_frequency text)) = Ok root.2
    ∧ item_ok root ∧ NoDup root.2.*1 ∧ ∀ ch, ch ∈ root.2.*1 ↔ ch ∈ text.
Proof.
  intros Hne.
  destruct (build_frequency_keys text [] (NoDup_nil_2)) as [Hnd Hkeys].
  fold (build_frequency text) in Hnd, Hkeys.
  destruct (build_heap_ok _ Hnd) as (Hok & Hsym & Hlen).
  set (heap := build_heap (build_frequency text)) in *.
  assert (Hheap : heap ≠ []).
  { intros E. rewrite E in Hlen. simpl in Hlen.
    destruct text as [|c text]; [done|].
    assert (Hc : c ∈ (build_frequency (c :: text)).*1).
    { apply Hkeys. right. by left. }
    destruct (build_frequency (c :: text)); [|done].
    by apply elem_of_nil in Hc. }
  destruct (build_codes_loop_ok (length heap) heap) as (root & Hloop & Hroot & Hs);
    [lia|done|done|].
  exists root. unfold build_codes. rewrite Hloop, bind_Ok.
  assert (Hndr : NoDup root.2.*1).
  { rewrite Hs, Hsym. done. }
  rewrite dict_NoDup by done. split; [done|]. split; [done|].
  split; [done|]. intros ch. rewrite Hs, Hsym, Hkeys.
  rewrite elem_of_nil. tauto.
Qed.
Lemma build_codes_loop_fuel fuel fuel' heap :
  (length heap ≤ S fuel)%nat → (length heap ≤ S fuel')%nat →
  build_codes_loop fuel heap = build_codes_loop fuel' heap.
Proof.
  revert fuel' heap.
  induction fuel as [|fuel IH]; intros [|fuel'] heap Hf Hf';
    cbn [build_codes_loop]; try done.
  - by destruct (Nat.ltb_spec 1 (length heap)); [lia|].
  - by destruct (Nat.ltb_spec 1 (length heap)); [lia|].
  - destruct (Nat.ltb_spec 1 (length heap)) as [Hlen|_]; [|done].
    unfold merge.
    destruct (heappop_perm item_lt heap) as (a & heap1 & -> & Hp1).
    { intros ->. simpl in Hlen. lia. }
    rewrite bind_Ok.
    destruct (heappop_perm item_lt heap1) as (b & heap2 & -> & Hp2).
    { intros ->. apply Permutation_length in Hp1. simpl in Hp1. lia. }
    rewrite !bind_Ok.
    apply Permutation_length in Hp1, Hp2. simpl in Hp1, Hp2.
    apply IH; rewrite (Permutation_length (heappush_perm _ _ _)); simpl; lia.
Qed.
End huffman_table.

(** C4.  For every text that is not empty the code table built by
    [build_codes] is prefix-free, and the sum over its codes of
    [2^(-length)] is at most one; a text of one distinct symbol is no
    exception. *)
Theorem huffman_prefix_free (text : str) :
  text ≠ [] →
  ∃ table,
    HuffmanCoding.build_codes
      (HuffmanCoding.build_heap (HuffmanCoding.build_frequency text))
    = Ok table
    ∧ prefix_free table ∧ (kraft_sum table <= 1)%Q.
Proof.
  intros Hne. destruct (build_codes_spec text Hne) as (root & Hb & Hok & _).
  exists root.2. split; [done|]. split; [apply Hok|].
  rewrite (ok_kraft _ Hok). apply Qle_refl.
Qed.

Lemma huffman_prefix_free_witness :
  lit "abracadabra" ≠ []
  ∧ ∃ table,
      HuffmanCoding.build_codes
        (HuffmanCoding.build_heap
           (HuffmanCoding.build_frequency (lit "abracadabra")))
      = Ok table
      ∧ prefix_free table ∧ (kraft_sum table <= 1)%Q.
Proof.
  assert (Hne : lit "abracadabra" ≠ []) by done.
  split; [exact Hne|]. exact (huffman_prefix_free (lit "abracadabra") Hne).
Defined.

(** ** Huffman coding: one distinct symbol, and the empty text *)

Section huffman_degenerate.
Import HuffmanCoding.

Lemma count_replicate a k n :
  foldl (λ freq ch, count_char ch freq) [(a, k)] (replicate n a)
  = [(a, (k + N.of_nat n)%N)].
Proof.
  revert k. induction n as [|n IH]; intros k.
  - simpl. do 2 f_equal. lia.
  - cbn [replicate foldl count_char]. rewrite decide_True by done.
    rewrite IH. do 2 f_equal. lia.
Qed.

Lemma build_frequency_replicate a n :
  build_frequency (replicate (S n) a) = [(a, N.of_nat (S n))].
Proof.
  unfold build_frequency. cbn [replicate foldl count_char].
  rewrite count_replicate. do 2 f_equal. lia.
Qed.

Lemma huffman_encode_replicate a n :
  huffman_encode (replicate n a) [(a, [])] = Ok [].
Proof.
  induction n as [|n IH]; [done|].
  cbn [replicate huffman_encode dict_get]. rewrite decide_True by done.
  by rewrite bind_Ok, IH.
Qed.

Lemma compress_replicate a n :
  compress (replicate (S n) a) = Ok ([], [(a, [])], [(a, N.of_nat (S n))]).
Proof.
  unfold compress. rewrite build_frequency_replicate.
  change (build_codes (build_heap [(a, N.of_nat (S n))]))
    with (Ok [(a, @nil N)] : outcome (list (N * list N))).
  by rewrite bind_Ok, huffman_encode_replicate.
Qed.
End huffman_degenerate.

(** C5 on the code: a text of one distinct symbol, such as ["aaaa"], gets
    the table that gives its symbol the empty code, not ["0"]; the encoded
    string is empty and decoding it gives the empty text back, not the
    input. *)
Theorem huffman_single_symbol (a : char) (n : nat) :
  HuffmanCoding.compress (replicate (S n) a)
  = Ok ([], [(a, [])], [(a, N.of_nat (S n))])
  ∧ HuffmanCoding.decode [] [(a, [])] = Ok []
  ∧ HuffmanCoding.compress (lit "aaaa") = Ok ([], [(97%N, [])], [(97%N, 4%N)]).
Proof.
  split; [apply compress_replicate|]. split; [done|].
  apply (compress_replicate 97%N 3).
Qed.

(** C1 on the code: the round trip through [compress] and [decode] loses
    the text ["aaaa"]. *)
Theorem huffman_round_trip_single_symbol :
  (HuffmanCoding.compress (lit "aaaa") ≫= λ '(encoded, table, _),
     HuffmanCoding.decode encoded table) = Ok []
  ∧ lit "aaaa" ≠ [].
Proof. split; [by vm_compute|done]. Qed.

(** C6 on the code: on the empty input run-length coding, Golomb coding
    and LZW return the empty output, and Huffman's [compress] raises
    [IndexError] ([build_codes] reads [heap[0]] of the empty heap). *)
Theorem empty_input `{UnicodeTables} (m : Z) :
  RunLengthEncoding.encode [] = []
  ∧ RunLengthEncoding.decode [] = Ok []
  ∧ GolombCoding.compress [] m = Ok []
  ∧ (LZWCoding.encode [] ≫= λ '(codes, _), Ok codes) = Ok []
  ∧ LZWCoding.decode [] = Ok []
  ∧ HuffmanCoding.build_codes [] = Raise IndexError
  ∧ HuffmanCoding.compress [] = Raise IndexError.
Proof. repeat split. Qed.

(** ** Huffman coding: ties *)

Section huffman_ties.
Import HuffmanCoding.

(** Two leaves of equal weight compare as their symbols do. *)
Lemma item_lt_leaves (x y w : N) :
  x ≠ y → item_lt (w, [(x, [])]) (w, [(y, [])]) = (x <? y)%N.
Proof.
  intros Hne. unfold item_lt, pair_lt, pair_eq. cbn [fst snd seq_lt].
  rewrite N.eqb_refl. by destruct (N.eqb_spec x y).
Qed.

Lemma build_codes_two_leaves (x y w : N) :
  x ≠ y →
  build_codes (build_heap [(x, w); (y, w)])
  = Ok [(N.min x y, [48%N]); (N.max x y, [49%N])].
Proof.
  intros Hne.
  assert (Hyx : item_lt (w, [(y, [])]) (w, [(x, [])]) = (y <? x)%N)
    by (by apply item_lt_leaves).
  pose proof (item_lt_leaves x y w Hne) as Hxy.
  unfold build_codes, build_heap, heapify, _siftup, _siftdown.
  cbn -[item_lt N.add].
  rewrite Hxy. destruct (N.ltb_spec x y) as [Hlt|Hge].
  - cbn -[item_lt N.add].
    rewrite decide_False by (intros ->; lia).
    rewrite N.min_l, N.max_r by lia. done.
  - cbn -[item_lt N.add].
    rewrite decide_False by (intros ->; lia).
    rewrite N.min_r, N.max_l by lia. done.
Qed.

(** Python's order on the items of the heap is a strict total order. *)
Lemma pair_strict_total : strict_total pair_eq pair_lt.
Proof.
  exact (lex_strict_total _ _ N_strict_total _ _
           (seq_strict_total _ _ N_strict_total)).
Qed.

Lemma item_strict_total :
  strict_total (λ a b : item, (a.1 =? b.1)%N && seq_eq pair_eq a.2 b.2)
    item_lt.
Proof.
  exact (lex_strict_total _ _ N_strict_total _ _
           (seq_strict_total _ _ pair_strict_total)).
Qed.

Lemma item_lt_le a b : item_lt a b = true → le item_lt a b.
Proof. apply (st_asym _ _ item_strict_total). Qed.

Lemma item_le_trans a b c :
  le item_lt a b → le item_lt b c → le item_lt a c.
Proof. intros Hab Hbc. by apply (st_le_trans _ _ item_strict_total a b c). Qed.

(** Between two items of equal weight the first symbols decide. *)
Lemma item_lt_tie (w x y : N) cx cy ps qs :
  x ≠ y → item_lt (w, (x, cx) :: ps) (w, (y, cy) :: qs) = (x <? y)%N.
Proof.
  intros Hne. unfold item_lt, pair_lt, pair_eq. cbn [fst snd seq_lt].
  rewrite N.eqb_refl. by destruct (N.eqb_spec x y).
Qed.

(** What a round of [build_codes] extracts. *)
Lemma merge_least heap :
  heap_from item_lt 0 heap → (1 < length heap)%nat →
  ∃ smallest heap1 secsmallest heap2,
    heappop item_lt heap = Ok (smallest, heap1)
    ∧ heappop item_lt heap1 = Ok (secsmallest, heap2)
    ∧ (∀ x, x ∈ heap → item_lt x smallest = false)
    ∧ (∀ x, x ∈ heap1 → item_lt x secsmallest = false)
    ∧ merge heap
      = Ok (heappush item_lt heap2
              ((smallest.1 + secsmallest.1)%N,
               prepend 48%N smallest.2 ++ prepend 49%N secsmallest.2))
    ∧ heap_from item_lt 0 heap2.
Proof.
  intros Hheap Hlen.
  destruct (heappop_perm item_lt heap) as (a & heap1 & Hpop1 & Hp1).
  { intros ->. simpl in Hlen. lia. }
  destruct (heappop_perm item_lt heap1) as (b & heap2 & Hpop2 & Hp2).
  { intros ->. apply Permutation_length in Hp1. simpl in Hp1. lia. }
  destruct (heappop_heap item_lt item_lt_le item_le_trans _ _ _ Hheap Hpop1)
    as [Hheap1 Hleast1].
  destruct (heappop_heap item_lt item_lt_le item_le_trans _ _ _ Hheap1 Hpop2)
    as [Hheap2 Hleast2].
  exists a, heap1, b, heap2. repeat split; try done.
  unfold merge. by rewrite Hpop1, bind_Ok, Hpop2, bind_Ok.
Qed.

Lemma reachable_heap_from text heap :
  reachable text heap → heap_from item_lt 0 heap.
Proof.
  induction 1 as [|heap heap' _ IH Hlen Hmerge].
  - apply heapify_heap; [apply item_lt_le|apply item_le_trans].
  - destruct (merge_least heap IH Hlen)
      as (a & heap1 & b & heap2 & _ & _ & _ & _ & Hm & Hheap2).
    rewrite Hm in Hmerge. injection Hmerge as <-.
    by apply heappush_heap; [apply item_lt_le|apply item_le_trans|].
Qed.

(** [build_codes] stays within the reachable heaps. *)
Lemma build_codes_loop_reachable text fuel heap heap' :
  reachable text heap → build_codes_loop fuel heap = Ok heap' →
  reachable text heap'.
Proof.
  revert heap. induction fuel as [|fuel IH]; intros heap Hr Hloop;
    cbn [build_codes_loop] in Hloop.
  - by injection Hloop as <-.
  - destruct (Nat.ltb_spec 1 (length heap)) as [Hlen|_];
      [|by injection Hloop as <-].
    destruct (merge heap) as [heap1|] eqn:Hmerge; [|done].
    rewrite bind_Ok in Hloop. apply (IH heap1); [|done].
    by apply (reachable_merge text heap).
Qed.
End huffman_ties.

(** C7, the counterexample: in ["ba"] the symbol ['b'] is seen first and
    has the weight of ['a'], and it is ['a'] that gets ["0"]. *)
Lemma huffman_tie_break_counterexample : ¬ first_seen_gets_0 (lit "ba").
Proof.
  intros Hclaim. specialize (Hclaim 98%N 97%N 1%N eq_refl).
  vm_compute in Hclaim. discriminate.
Qed.

(** C7 as the code has it: the heap of [build_codes] is ordered by
    Python's [<] on the lists [[weight, [symbol, code], ...]].  In every
    round the item extracted first (bit 0) is a least item of the heap and
    the second (bit 1) a least item of the rest; and between two items of
    equal weight the order is that of their first symbols' code points,
    not of their first appearance in the text. *)
Theorem huffman_tie_break_by_list_order (text : str)
    (heap : list (N * list (N * list N))) :
  reachable text heap → (1 < length heap)%nat →
  ∃ smallest heap1 secsmallest heap2,
    heappop HuffmanCoding.item_lt heap = Ok (smallest, heap1)
    ∧ heappop HuffmanCoding.item_lt heap1 = Ok (secsmallest, heap2)
    ∧ (∀ x, x ∈ heap → HuffmanCoding.item_lt x smallest = false)
    ∧ (∀ x, x ∈ heap1 → HuffmanCoding.item_lt x secsmallest = false)
    ∧ HuffmanCoding.merge heap
      = Ok (heappush HuffmanCoding.item_lt heap2
              ((smallest.1 + secsmallest.1)%N,
               HuffmanCoding.prepend 48%N smallest.2
               ++ HuffmanCoding.prepend 49%N secsmallest.2))
    ∧ ∀ (w x y : N) cx cy ps qs,
        x ≠ y →
        HuffmanCoding.item_lt (w, (x, cx) :: ps) (w, (y, cy) :: qs)
        = (x <? y)%N.
Proof.
  intros Hreach Hlen.
  destruct (merge_least heap (reachable_heap_from text heap Hreach) Hlen)
    as (a & heap1 & b & heap2 & Hpop1 & Hpop2 & Hleast1 & Hleast2 & Hm & _).
  exists a, heap1, b, heap2. repeat split; try done.
  intros w x y cx cy ps qs Hne. by apply item_lt_tie.
Qed.

Lemma huffman_tie_break_by_list_order_witness :
  let heap := HuffmanCoding.build_heap
                (HuffmanCoding.build_frequency (lit "ba")) in
  reachable (lit "ba") heap ∧ (1 < length heap)%nat
  ∧ ∃ smallest heap1 secsmallest heap2,
      heappop HuffmanCoding.item_lt heap = Ok (smallest, heap1)
      ∧ heappop HuffmanCoding.item_lt heap1 = Ok (secsmallest, heap2)
      ∧ (∀ x, x ∈ heap → HuffmanCoding.item_lt x smallest = false)
      ∧ (∀ x, x ∈ heap1 → HuffmanCoding.item_lt x secsmallest = false).
Proof.
  intros heap.
  assert (Hreach : reachable (lit "ba") heap) by apply reachable_heap.
  assert (Hlen : (1 < length heap)%nat) by (vm_compute; lia).
  split; [exact Hreach|]. split; [exact Hlen|].
  destruct (huffman_tie_break_by_list_order (lit "ba") heap Hreach Hlen)
    as (a & heap1 & b & heap2 & Hpop1 & Hpop2 & Hleast1 & Hleast2 & _).
  by exists a, heap1, b, heap2.
Defined.

(** In a text of two symbols of equal count the symbol of the smaller
    code point gets ["0"] and the other ["1"], whichever came first. *)
Corollary huffman_two_symbols (text : str) (x y w : N) :
  HuffmanCoding.build_frequency text = [(x, w); (y, w)] →
  HuffmanCoding.build_codes
    (HuffmanCoding.build_heap (HuffmanCoding.build_frequency text))
  = Ok [(N.min x y, [48%N]); (N.max x y, [49%N])].
Proof.
  intros Hfreq.
  assert (Hne : x ≠ y).
  { destruct (build_frequency_keys text [] (NoDup_nil_2)) as [Hnd _].
    fold (HuffmanCoding.build_frequency text) in Hnd.
    rewrite Hfreq in Hnd. simpl in Hnd.
    apply list.NoDup_cons in Hnd as [Hnin _]. intros ->. apply Hnin. by left. }
  rewrite Hfreq. by apply build_codes_two_leaves.
Qed.

(** ** Huffman coding: decoding *)

Section huffman_decode.
Import HuffmanCoding.

Lemma decode_loop_app rev bits1 bits2 decoded current :
  decode_loop rev (bits1 ++ bits2) decoded current
  = let '(decoded', current') := decode_loop rev bits1 decoded current in
    decode_loop rev bits2 decoded' current'.
Proof.
  revert decoded current.
  induction bits1 as [|bit bits1 IH]; intros decoded current; simpl; [done|].
  destruct (rev !! (current ++ [bit])); apply IH.
Qed.

(** Bits of which no run from the candidate on is a code stay in the
    candidate. *)
Lemma decode_loop_unmatched (rev : gmap str char) bits decoded current :
  (∀ p, p ≠ [] → p `prefix_of` bits → rev !! (current ++ p) = None) →
  decode_loop rev bits decoded current = (decoded, current ++ bits).
Proof.
  revert current. induction bits as [|bit bits IH]; intros current Hno; simpl.
  - by rewrite (right_id_L [] (++)).
  - rewrite (Hno [bit]); [|done|by exists bits].
    rewrite IH.
    + by rewrite <- (assoc_L (++)).
    + intros p Hp [k ->]. rewrite <- (assoc_L (++)).
      apply Hno; [done|]. by exists k.
Qed.

(** *** The round trip on a text of two symbols or more *)

Lemma dict_get_elem (table : codes) ch code :
  NoDup table.*1 → (ch, code) ∈ table → dict_get table ch = Ok code.
Proof.
  induction table as [|[k v] table IH]; intros Hnd Hin.
  - by apply elem_of_nil in Hin.
  - rewrite fmap_cons in Hnd. apply list.NoDup_cons in Hnd as [Hk Hnd].
    cbn [dict_get]. apply elem_of_cons in Hin as [Heq|Hin].
    + injection Heq as -> ->. by rewrite decide_True.
    + rewrite decide_False; [by apply IH|].
      intros ->. apply Hk. apply list_elem_of_fmap. by exists (ch, code).
Qed.

Lemma reverse_codes_Some (table : codes) (m : gmap str char) code ch :
  foldl (λ m '(ch, code), <[code := ch]> m) m table !! code = Some ch →
  (ch, code) ∈ table ∨ m !! code = Some ch.
Proof.
  revert m. induction table as [|[k v] table IH]; intros m; simpl; [by right|].
  intros [Hin|Hm]%IH; [left; by right|].
  destruct (decide (v = code)) as [->|Hne].
  - rewrite lookup_insert_eq in Hm. injection Hm as ->. left. by left.
  - rewrite lookup_insert_ne in Hm by done. by right.
Qed.

Lemma reverse_codes_is_Some (table : codes) (m : gmap str char) code :
  (∃ ch, (ch, code) ∈ table) ∨ is_Some (m !! code) →
  is_Some (foldl (λ m '(ch, code), <[code := ch]> m) m table !! code).
Proof.
  revert m. induction table as [|[k v] table IH]; intros m; simpl.
  - intros [[ch []%elem_of_nil]|?]. done.
  - intros Hc. apply IH. destruct (decide (v = code)) as [->|Hne].
    + right. by rewrite lookup_insert_eq.
    + rewrite lookup_insert_ne by done.
      destruct Hc as [[ch [Heq|Hin]%elem_of_cons]|?]; [congruence| |by right].
      left. by exists ch.
Qed.

Lemma reverse_codes_lookup (table : codes) ch code :
  decodable table → (ch, code) ∈ table →
  reverse_codes table !! code = Some ch.
Proof.
  intros Hdec Hin.
  destruct (reverse_codes_is_Some table ∅ code) as [ch' Hch'].
  { left. by exists ch. }
  fold (reverse_codes table) in Hch'. rewrite Hch'. f_equal.
  apply reverse_codes_Some in Hch' as [Hin'|Hm];
    [|by rewrite lookup_empty in Hm].
  destruct (decide (ch' = ch)) as [|Hne]; [done|]. exfalso.
  by apply (dec_prefix_free _ Hdec ch' code ch code).
Qed.

(** A proper start of a code is no code. *)
Lemma reverse_codes_proper_prefix (table : codes) ch pre suf :
  decodable table → (ch, pre ++ suf) ∈ table → pre ≠ [] → suf ≠ [] →
  reverse_codes table !! pre = None.
Proof.
  intros Hdec Hin Hpre Hsuf.
  destruct (reverse_codes table !! pre) as [ch'|] eqn:Hlk; [|done]. exfalso.
  apply reverse_codes_Some in Hlk as [Hin'|Hm];
    [|by rewrite lookup_empty in Hm].
  destruct (decide (ch' = ch)) as [->|Hne].
  - assert (Heq : pre = pre ++ suf).
    { pose proof (dict_get_elem _ _ _ (dec_keys _ Hdec) Hin) as H1.
      pose proof (dict_get_elem _ _ _ (dec_keys _ Hdec) Hin') as H2.
      congruence. }
    apply (f_equal length) in Heq. rewrite length_app in Heq.
    destruct suf; [done|simpl in Heq; lia].
  - apply (dec_prefix_free _ Hdec ch' pre ch (pre ++ suf)); [done..|].
    by exists suf.
Qed.

(** Decoding the code of one symbol. *)
Lemma decode_loop_symbol (table : codes) ch pre suf rest decoded :
  decodable table → (ch, pre ++ suf) ∈ table → suf ≠ [] →
  decode_loop (reverse_codes table) (suf ++ rest) decoded pre
  = decode_loop (reverse_codes table) rest (decoded ++ [ch]) [].
Proof.
  intros Hdec. revert pre.
  induction suf as [|bit suf IH]; intros pre Hin Hsuf; [done|].
  cbn [app decode_loop]. destruct suf as [|bit' suf].
  - by rewrite (reverse_codes_lookup _ ch).
  - rewrite (reverse_codes_proper_prefix table ch (pre ++ [bit]) (bit' :: suf));
      [|done|by rewrite <- (assoc_L (++))|by destruct pre|done].
    apply IH; [by rewrite <- (assoc_L (++))|done].
Qed.

Lemma decode_encode_text (table : codes) text decoded :
  decodable table → (∀ ch, ch ∈ text → ch ∈ table.*1) →
  ∃ encoded,
    huffman_encode text table = Ok encoded
    ∧ decode_loop (reverse_codes table) encoded decoded []
      = (decoded ++ text, []).
Proof.
  intros Hdec. revert decoded.
  induction text as [|ch text IH]; intros decoded Hcover.
  - exists []. split; [done|]. simpl. by rewrite (right_id_L [] (++)).
  - assert (Hc : ch ∈ table.*1) by (apply Hcover; by left).
    apply list_elem_of_fmap in Hc as ([ch' code] & Heq & Hin).
    simpl in Heq. subst ch'.
    destruct (IH (decoded ++ [ch])) as (encoded & Henc & Hloop).
    { intros ch' Hch'. apply Hcover. by right. }
    exists (code ++ encoded). split.
    + cbn [huffman_encode].
      rewrite (dict_get_elem _ _ _ (dec_keys _ Hdec) Hin), bind_Ok.
      by rewrite Henc.
    + rewrite (decode_loop_symbol table ch [] code); [|done|done|].
      * rewrite Hloop. by rewrite <- (assoc_L (++)).
      * pose proof (dec_nonempty _ Hdec) as Hne.
        rewrite list.Forall_forall in Hne. by apply (Hne (ch, code)).
Qed.

(** With two distinct symbols in the text the table of [build_codes] is
    decodable. *)
Lemma build_codes_decodable text a b :
  a ∈ text → b ∈ text → a ≠ b →
  ∃ table,
    build_codes (build_heap (build_frequency text)) = Ok table
    ∧ decodable table ∧ ∀ ch, ch ∈ text → ch ∈ table.*1.
Proof.
  intros Ha Hb Hab.
  destruct (build_codes_spec text) as (root & Hbuild & Hok & Hnd & Hkeys).
  { intros ->. by apply elem_of_nil in Ha. }
  exists root.2. split; [done|]. split; [|intros ch ?; by apply Hkeys].
  split; [done|apply Hok|].
  destruct (ok_codes _ Hok) as [[ch Hroot]|Hne]; [|done]. exfalso.
  apply Hkeys in Ha, Hb. rewrite Hroot in Ha, Hb. simpl in Ha, Hb.
  apply list_elem_of_singleton in Ha, Hb. congruence.
Qed.
End huffman_decode.

(** X22.  The round trip of Huffman coding on every text with two distinct
    symbols at least: [decode] gives back the text that [compress]
    encoded. *)
Theorem huffman_round_trip_two_symbols (text : str) (a b : char) :
  a ∈ text → b ∈ text → a ≠ b →
  (HuffmanCoding.compress text ≫= λ '(encoded, table, _),
     HuffmanCoding.decode encoded table) = Ok text.
Proof.
  intros Ha Hb Hab.
  destruct (build_codes_decodable text a b Ha Hb Hab)
    as (table & Hbuild & Hdec & Hcover).
  destruct (decode_encode_text table text [] Hdec Hcover)
    as (encoded & Henc & Hloop).
  unfold HuffmanCoding.compress. rewrite Hbuild, bind_Ok, Henc, !bind_Ok.
  unfold HuffmanCoding.decode. by rewrite Hloop.
Qed.

(** C9, the counterexample: with the table [{'a': "00"}] the input ["0"]
    leaves the candidate ["0"], which matches no code, and [decode]
    returns the empty text. *)
Lemma huffman_decode_truncated_counterexample :
  ¬ rejects_truncated [(97%N, lit "00")] (lit "0").
Proof.
  intros Hclaim.
  destruct (Hclaim [] (lit "0")) as [e He]; [by vm_compute|done|by vm_compute|].
  vm_compute in He. discriminate.
Qed.

(** C9 as the code has it: [decode] does not fail on a truncated input.
    When the bits after a cleanly decoded part form a candidate that
    matches no code, whatever its length, [decode] returns the text
    decoded so far and drops the candidate. *)
Theorem huffman_decode_drops_candidate (table : HuffmanCoding.codes)
    (bits candidate text : str) :
  HuffmanCoding.decode_loop (HuffmanCoding.reverse_codes table) bits [] []
  = (text, []) →
  (∀ p, p ≠ [] → p `prefix_of` candidate →
        HuffmanCoding.reverse_codes table !! p = None) →
  HuffmanCoding.decode_loop (HuffmanCoding.reverse_codes table)
    (bits ++ candidate) [] [] = (text, candidate)
  ∧ HuffmanCoding.decode (bits ++ candidate) table = Ok text.
Proof.
  intros Hbits Hno.
  assert (Hloop : HuffmanCoding.decode_loop (HuffmanCoding.reverse_codes table)
                    (bits ++ candidate) [] [] = (text, candidate)).
  { rewrite decode_loop_app, Hbits. by apply decode_loop_unmatched. }
  split; [done|]. unfold HuffmanCoding.decode. by rewrite Hloop.
Qed.

Lemma huffman_decode_drops_candidate_witness :
  HuffmanCoding.decode (lit "010" ++ lit "1") [(97%N, lit "0"); (98%N, lit "10")]
  = Ok (lit "ab").
Proof.
  refine (proj2 (huffman_decode_drops_candidate
                   [(97%N, lit "0"); (98%N, lit "10")]
                   (lit "010") (lit "1") (lit "ab") _ _)).
  - by vm_compute.
  - intros p Hp [k Hk]. destruct p as [|c [|c' p]]; [done| |done].
    injection Hk as <-. by vm_compute.
Defined.

(** ** LZW coding *)

Section lzw.
Import LZWCoding.
Local Open Scope Z_scope.

Lemma fresh_insert E n s : fresh E n → fresh (<[n := s]> E) (n + 1).
Proof.
  intros Hf k Hk. rewrite lookup_insert_ne by lia. apply Hf. lia.
Qed.

(** *** The initial dictionaries *)

Lemma decode_init_lookup (l : list Z) (d : gmap Z (list N)) k :
  foldl (λ d i, <[i := chr i]> d) d l !! k
  = if decide (k ∈ l) then Some (chr k) else d !! k.
Proof.
  revert d. induction l as [|i l IH]; intros d; cbn [foldl].
  - case_decide as Hin; [by apply elem_of_nil in Hin|done].
  - rewrite IH. destruct (decide (k ∈ l)) as [Hin|Hnin].
    + rewrite decide_True; [done|]. by right.
    + destruct (decide (k = i)) as [->|Hne].
      * rewrite decide_True by (by left). by rewrite lookup_insert_eq.
      * rewrite decide_False by (by intros [?|?]%elem_of_cons).
        by rewrite lookup_insert_ne.
Qed.

Lemma decode_init_spec size k :
  decode_init size !! k
  = if decide (0 ≤ k < size) then Some (chr k) else None.
Proof.
  unfold decode_init. rewrite decode_init_lookup, lookup_empty.
  destruct (decide (k ∈ seqZ 0 size)) as [Hin|Hnin];
    rewrite elem_of_seqZ in *; case_decide; done || lia.
Qed.

Lemma encode_init_lookup (l : list Z) (d : gmap (list N) Z) s c :
  foldl (λ d i, <[chr i := i]> d) d l !! s = Some c →
  (c ∈ l ∧ s = chr c) ∨ d !! s = Some c.
Proof.
  revert d. induction l as [|i l IH]; intros d; simpl; [by right|].
  intros [[Hin ->]|Hd]%IH.
  - left. split; [by right|done].
  - destruct (decide (chr i = s)) as [<-|Hne].
    + rewrite lookup_insert_eq in Hd. injection Hd as <-.
      left. split; [by left|done].
    + rewrite lookup_insert_ne in Hd by done. by right.
Qed.

Lemma encode_init_is_Some (l : list Z) (d : gmap (list N) Z) s :
  is_Some (d !! s) ∨ (∃ i, i ∈ l ∧ s = chr i) →
  is_Some (foldl (λ d i, <[chr i := i]> d) d l !! s).
Proof.
  revert d. induction l as [|i l IH]; intros d; simpl.
  - intros [?|(i & []%elem_of_nil & _)]. done.
  - intros Hs. apply IH.
    destruct (decide (chr i = s)) as [<-|Hne].
    + left. by rewrite lookup_insert_eq.
    + rewrite lookup_insert_ne by done.
      destruct Hs as [?|(j & [->|?]%elem_of_cons & ->)]; [by left|done|].
      right. by exists j.
Qed.

Lemma init_inverse : inverse encode_init (decode_init 256).
Proof.
  intros s c [[Hin ->]|Hd]%encode_init_lookup.
  - rewrite decode_init_spec. rewrite elem_of_seqZ in Hin.
    by rewrite decide_True by lia.
  - by rewrite lookup_empty in Hd.
Qed.

Lemma init_fresh : fresh (decode_init 256) 256.
Proof.
  intros k Hk. rewrite decode_init_spec. by rewrite decide_False by lia.
Qed.

Lemma init_single (ch : N) : (ch < 256)%N → is_Some (encode_init !! [ch]).
Proof.
  intros Hch. apply encode_init_is_Some. right.
  exists (Z.of_N ch). split.
  - apply elem_of_seqZ. lia.
  - unfold chr. by rewrite N2Z.id.
Qed.

(** *** The encoder *)

Lemma encode_finish text :
  encode text = encode_loop text encode_init 256 [] [] ≫= finish.
Proof.
  unfold encode. destruct (encode_loop _ _ _ _ _) as [[[r d] c]|]; done.
Qed.

Lemma phrases_head E n cs ps x t :
  phrases E n cs ps → concat ps = x :: t →
  ∃ p' ps', ps = p' :: ps' ∧ take 1 p' = [x].
Proof.
  intros Hph Hcat. destruct Hph as [|c p Hc Hp|c p cs p' ps Hc Hp _].
  - done.
  - exists p, []. split; [done|]. destruct p as [|y p]; [done|].
    simpl in Hcat. by injection Hcat as -> _.
  - exists p, (p' :: ps). split; [done|]. destruct p as [|y p]; [done|].
    simpl in Hcat. by injection Hcat as -> _.
Qed.

Lemma encode_loop_spec text D E n w result :
  inverse D E → fresh E n → w ≠ [] → is_Some (D !! w) →
  (∀ ch, ch ∈ text → is_Some (D !! [ch])) →
  ∃ cs ps D',
    encode_loop text D n w result ≫= finish = Ok (result ++ cs, D')
    ∧ phrases E n cs ps ∧ concat ps = w ++ text.
Proof.
  revert D E n w result.
  induction text as [|next_n text IH];
    intros D E n w result Hinv Hfresh Hw [code Hcode] Hsingle.
  - exists [code], [w], D. split; [|split].
    + simpl. destruct w as [|x w]; [done|].
      unfold getitem. by rewrite Hcode.
    + apply phrases_last; [by apply Hinv|done].
    + simpl. by rewrite !(right_id_L [] (++)).
  - cbn [encode_loop].
    destruct (D !! (w ++ [next_n])) as [c|] eqn:Hcombined.
    + destruct (IH D E n (w ++ [next_n]) result) as (cs & ps & D' & ? & ? & Hcat);
        [done|done|by destruct w|done| |].
      { intros ch Hch. apply Hsingle. by right. }
      exists cs, ps, D'. split; [done|]. split; [done|].
      by rewrite Hcat, <- (assoc_L (++)).
    + unfold getitem at 1. rewrite Hcode, bind_Ok.
      assert (Hne : w ++ [next_n] ≠ [next_n]).
      { intros Heq. apply (f_equal length) in Heq.
        rewrite length_app in Heq. simpl in Heq.
        destruct w; [done|simpl in Heq; lia]. }
      destruct (IH (<[w ++ [next_n] := n]> D) (<[n := w ++ [next_n]]> E)
                  (n + 1) [next_n] (result ++ [code]))
        as (cs & ps & D' & Hrun & Hph & Hcat).
      * intros s c Hs. destruct (decide (w ++ [next_n] = s)) as [<-|Hs'].
        -- rewrite lookup_insert_eq in Hs. injection Hs as <-.
           by rewrite lookup_insert_eq.
        -- rewrite lookup_insert_ne in Hs by done.
           apply Hinv in Hs. rewrite lookup_insert_ne; [done|].
           intros <-. rewrite Hfresh in Hs by lia. done.
      * by apply fresh_insert.
      * done.
      * rewrite lookup_insert_ne by done. apply Hsingle. by left.
      * intros ch Hch.
        destruct (decide (w ++ [next_n] = [ch])) as [Heq|Hneq].
        -- rewrite Heq, lookup_insert_eq. done.
        -- rewrite lookup_insert_ne by done. apply Hsingle. by right.
      * destruct (phrases_head _ _ _ _ _ _ Hph Hcat) as (p' & ps' & -> & Hp').
        exists (code :: cs), (w :: p' :: ps'), D'. split; [|split].
        -- rewrite Hrun. by rewrite <- (assoc_L (++)).
        -- apply phrases_cons; [by apply Hinv|done|]. by rewrite Hp'.
        -- change (concat (w :: p' :: ps')) with (w ++ concat (p' :: ps')).
           by rewrite Hcat.
Qed.

(** *** The decoder *)

Lemma decode_loop_spec cs ps T n prev decoded :
  fresh T n → prev ≠ [] → behind T n prev cs ps →
  decode_loop cs T n prev decoded = Ok (decoded ++ concat ps).
Proof.
  revert ps T n prev decoded.
  induction cs as [|c cs IH]; intros ps T n prev decoded Hfresh Hprev Hb.
  - destruct ps as [|p' ps]; [simpl; by rewrite (right_id_L [] (++))|].
    simpl in Hb. inversion Hb.
  - destruct ps as [|p' ps]; [done|]. simpl in Hb.
    assert (Hlk : <[n := prev ++ take 1 p']> T !! c = Some p'
                  ∧ p' ≠ [] ∧ behind (<[n := prev ++ take 1 p']> T)
                                 (n + 1) p' cs ps).
    { inversion Hb; subst; done. }
    destruct Hlk as (Hlk & Hp' & Hb').
    destruct p' as [|y p']; [done|].
    destruct prev as [|x prev]; [done|].
    assert (Hcur : match T !! c with
                   | Some s => Ok s
                   | None =>
                       if decide (c = n)
                       then c0 ← first (x :: prev); Ok ((x :: prev) ++ [c0])
                       else Raise ValueError
                   end = Ok (y :: p')).
    { destruct (T !! c) as [s|] eqn:HT.
      - rewrite lookup_insert_ne in Hlk; [congruence|].
        intros <-. rewrite Hfresh in HT by lia. done.
      - destruct (decide (c = n)) as [->|Hne];
          [|by rewrite lookup_insert_ne, HT in Hlk].
        rewrite lookup_insert_eq in Hlk. simpl in Hlk.
        rewrite take_0 in Hlk. injection Hlk as -> <-. done. }
    cbn [decode_loop]. rewrite Hcur, bind_Ok. simpl first. rewrite bind_Ok.
    rewrite (IH ps); [|by apply fresh_insert|done|done].
    f_equal. simpl. by rewrite <- (assoc_L (++)).
Qed.

Lemma decode_encode_lzw text :
  Forall (λ ch, (ch < 256)%N) text →
  encode text ≫= (λ '(codes, _), decode codes) = Ok text.
Proof.
  intros Htext. rewrite encode_finish.
  destruct text as [|ch text]; [done|].
  apply list.Forall_cons in Htext as [Hch Htext].
  cbn [encode_loop app]. destruct (init_single ch Hch) as [c Hc].
  rewrite Hc.
  destruct (encode_loop_spec text encode_init (decode_init 256) 256 [ch] [])
    as (cs & ps & D' & -> & Hph & Hcat).
  - apply init_inverse.
  - apply init_fresh.
  - done.
  - by exists c.
  - intros ch' Hin. apply init_single.
    rewrite list.Forall_forall in Htext. by apply Htext.
  - rewrite bind_Ok. simpl. unfold decode, decode_from.
    inversion Hph as [|c1 p Hc1 Hp|c1 p cs' p' ps' Hc1 Hp Hrest]; subst.
    + done.
    + unfold getitem. rewrite Hc1, bind_Ok. simpl.
      simpl in Hcat. rewrite (right_id_L [] (++)) in Hcat. by subst.
    + unfold getitem. rewrite Hc1, bind_Ok.
      rewrite (decode_loop_spec cs' (p' :: ps'));
        [|apply init_fresh|done|done].
      f_equal. exact Hcat.
Qed.
End lzw.

(** C2.  LZW round-trips on every text of characters below 256: decoding
    the codes of [encode(text)] from the same initial dictionary gives the
    text back.  The text ["aaa"] is coded [[97, 256]], where 256 reaches
    the decoder before it is in its dictionary. *)
Theorem lzw_round_trip (text : str) :
  Forall (λ ch, (ch < 256)%N) text →
  (LZWCoding.encode text ≫= λ '(codes, _), LZWCoding.decode codes) = Ok text
  ∧ (LZWCoding.encode (lit "aaa") ≫= λ '(codes, _), Ok codes)
    = Ok [97%Z; 256%Z]
  ∧ LZWCoding.decode_init 256 !! 256%Z = None
  ∧ LZWCoding.decode [97%Z; 256%Z] = Ok (lit "aaa").
Proof.
  intros Htext. split; [by apply decode_encode_lzw|].
  split; [by vm_compute|]. split; [apply init_fresh; lia|by vm_compute].
Qed.

Lemma lzw_round_trip_witness :
  Forall (λ ch, (ch < 256)%N) (lit "TOBEORNOTTOBEORTOBEORNOT")
  ∧ (LZWCoding.encode (lit "TOBEORNOTTOBEORTOBEORNOT") ≫= λ '(codes, _),
       LZWCoding.decode codes) = Ok (lit "TOBEORNOTTOBEORTOBEORNOT").
Proof.
  assert (Htext : Forall (λ ch, (ch < 256)%N) (lit "TOBEORNOTTOBEORTOBEORNOT"))
    by (repeat constructor).
  split; [exact Htext|].
  exact (proj1 (lzw_round_trip (lit "TOBEORNOTTOBEORTOBEORNOT") Htext)).
Defined.

(** * Further properties of the codecs *)

(** ** Run-length encoding *)

Section rle_more.
Context `{UnicodeTables}.
Import RunLengthEncoding.

Lemma decode_encode_loop_app rest prev count decoded tail :
  isdigit prev = false →
  Forall (λ c, isdigit c = false) rest →
  decode_loop (encode_loop prev rest [] count ++ tail) decoded []
  = decode_loop tail (decoded ++ str_mul prev count ++ rest) [].
Proof.
  intros Hprev Hrest. revert prev count decoded Hprev.
  induction Hrest as [|c rest Hc _ IH]; intros prev count decoded Hprev;
    cbn [encode_loop].
  - rewrite app_nil_l, <- (assoc_L (++)). simpl.
    rewrite decode_loop_run by done. by rewrite (right_id_L [] (++)).
  - destruct (decide (c = prev)) as [->|Hne].
    + rewrite IH by done. do 2 f_equal. unfold str_mul.
      replace (N.to_nat (count + 1)) with (S (N.to_nat count)) by lia.
      rewrite replicate_S_end. by rewrite <- (assoc_L (++)).
    + rewrite encode_loop_app, <- !(assoc_L (++)). simpl.
      rewrite decode_loop_run by done. rewrite IH by done.
      f_equal. by rewrite <- (assoc_L (++)).
Qed.

(** Decoding goes through an encoding and on to what follows it. *)
Lemma decode_loop_encode x tail decoded :
  Forall (λ c, isdigit c = false) x →
  decode_loop (encode x ++ tail) decoded []
  = decode_loop tail (decoded ++ x) [].
Proof.
  intros Hx. destruct Hx as [|c x Hc Hx].
  - simpl. by rewrite (right_id_L [] (++)).
  - unfold encode. by rewrite decode_encode_loop_app.
Qed.

Lemma decode_loop_all_digits s decoded count :
  Forall (λ c, isdigit c = true) s → decode_loop s decoded count = Ok decoded.
Proof.
  intros Hs. revert count. induction Hs as [|c s Hc _ IH]; intros count;
    simpl; [done|].
  by rewrite Hc.
Qed.

Lemma encode_loop_all_digits prev rest encoded count :
  isdigit prev = true →
  Forall (λ c, isdigit c = true) rest →
  Forall (λ c, isdigit c = true) encoded →
  Forall (λ c, isdigit c = true) (encode_loop prev rest encoded count).
Proof.
  intros Hprev Hrest. revert prev encoded count Hprev.
  induction Hrest as [|c rest Hc _ IH]; intros prev encoded count Hprev Henc;
    cbn [encode_loop].
  - rewrite !Forall_app. split; [done|]. split; [apply str_of_int_digits|].
    by constructor.
  - destruct (decide (c = prev)); apply IH; try done.
    rewrite !Forall_app. split; [done|]. split; [apply str_of_int_digits|].
    by constructor.
Qed.

Lemma encode_loop_replicate a n count :
  encode_loop a (replicate n a) [] count
  = str_of_int (count + N.of_nat n) ++ [a].
Proof.
  revert count. induction n as [|n IH]; intros count; cbn [replicate encode_loop].
  - simpl. do 2 f_equal. lia.
  - rewrite decide_True by done. rewrite IH. do 2 f_equal. lia.
Qed.

Lemma no_repeat_cons a b x : no_repeat (a :: b :: x) → a ≠ b ∧ no_repeat (b :: x).
Proof.
  intros Hx. split.
  - by apply (Hx 0%nat).
  - intros i c d Hc Hd. by apply (Hx (S i)).
Qed.

Lemma encode_loop_no_repeat prev rest :
  no_repeat (prev :: rest) →
  length (encode_loop prev rest [] 1) = (2 * S (length rest))%nat.
Proof.
  revert prev. induction rest as [|c rest IH]; intros prev Hx;
    cbn [encode_loop].
  - done.
  - apply no_repeat_cons in Hx as [Hne Hx].
    rewrite decide_False by done.
    rewrite encode_loop_app, length_app, IH by done. simpl. lia.
Qed.
End rle_more.

(** X1.  Encodings concatenate: decoding the encoding of [x] followed by the
    encoding of [y] gives [x] followed by [y], for texts without a digit
    character (also when [y] goes on with the last run of [x]). *)
Theorem rle_decode_concat `{UnicodeTables} (x y : str) :
  Forall (λ c, isdigit c = false) x → Forall (λ c, isdigit c = false) y →
  RunLengthEncoding.decode
    (RunLengthEncoding.encode x ++ RunLengthEncoding.encode y)
  = Ok (x ++ y).
Proof.
  intros Hx Hy. unfold RunLengthEncoding.decode.
  rewrite decode_loop_encode by done. simpl.
  rewrite <- (right_id_L [] (++) (RunLengthEncoding.encode y)).
  rewrite decode_loop_encode by done. done.
Qed.

Lemma rle_decode_concat_witness :
  RunLengthEncoding.decode
    (RunLengthEncoding.encode (lit "AAB") ++ RunLengthEncoding.encode (lit "BBC"))
  = Ok (lit "AABBBC").
Proof.
  apply (rle_decode_concat (lit "AAB") (lit "BBC")); repeat constructor.
Defined.

(** X2.  A symbol that no count precedes makes [decode] raise [ValueError]
    ([int("")]), at the start of the input or after any number of
    well-formed runs. *)
Theorem rle_decode_missing_count `{UnicodeTables} (x rest : str) (ch : char) :
  Forall (λ c, isdigit c = false) x → isdigit ch = false →
  RunLengthEncoding.decode (RunLengthEncoding.encode x ++ ch :: rest)
  = Raise ValueError.
Proof.
  intros Hx Hch. unfold RunLengthEncoding.decode.
  rewrite decode_loop_encode by done. simpl. by rewrite Hch.
Qed.

Lemma rle_decode_missing_count_witness :
  RunLengthEncoding.decode (RunLengthEncoding.encode (lit "AAB") ++ lit "C3D")
  = Raise ValueError.
Proof.
  apply (rle_decode_missing_count (lit "AAB") (lit "3D") 67%N);
    repeat constructor.
Defined.

(** X3.  A text made of digit characters only is lost: its encoding is made of
    digits only, which [decode] takes for an unfinished count and
    drops. *)
Theorem rle_digits_lost `{UnicodeTables} (x : str) :
  Forall (λ c, isdigit c = true) x →
  Forall (λ c, isdigit c = true) (RunLengthEncoding.encode x)
  ∧ RunLengthEncoding.decode (RunLengthEncoding.encode x) = Ok [].
Proof.
  intros Hx.
  assert (Henc : Forall (λ c, isdigit c = true) (RunLengthEncoding.encode x)).
  { destruct Hx as [|c x Hc Hx]; [constructor|].
    by apply encode_loop_all_digits. }
  split; [done|]. by apply decode_loop_all_digits.
Qed.

Lemma rle_digits_lost_witness :
  RunLengthEncoding.encode (lit "2024") = lit "12101214"
  ∧ RunLengthEncoding.decode (RunLengthEncoding.encode (lit "2024")) = Ok [].
Proof.
  split; [reflexivity|].
  apply (rle_digits_lost (lit "2024")). repeat constructor.
Defined.

(** X4.  One run of [n + 1] copies of a symbol is coded as the decimal digits
    of [n + 1] followed by the symbol. *)
Theorem rle_encode_run (a : char) (n : nat) :
  RunLengthEncoding.encode (replicate (S n) a)
  = str_of_int (N.of_nat (S n)) ++ [a].
Proof.
  cbn [replicate RunLengthEncoding.encode]. rewrite encode_loop_replicate.
  do 2 f_equal. lia.
Qed.

(** X5.  A text in which no two neighbours are equal doubles in size: every
    symbol costs the count ["1"] and itself. *)
Theorem rle_encode_no_repeat (x : str) :
  no_repeat x →
  length (RunLengthEncoding.encode x) = (2 * length x)%nat.
Proof.
  intros Hx. destruct x as [|c x]; [done|].
  by apply encode_loop_no_repeat.
Qed.

Lemma rle_encode_no_repeat_witness :
  length (RunLengthEncoding.encode (lit "ABCA")) = 8%nat.
Proof.
  apply (rle_encode_no_repeat (lit "ABCA")).
  intros [|[|[|[|i]]]] a b Ha Hb; simpl in Ha, Hb; by simplify_eq.
Defined.

(** X8.  [compress] on a text without a digit character: the decoded
    component is the text, and the sizes are those of the text and of its
    encoding. *)
Theorem rle_compress `{UnicodeTables} (text : str) :
  Forall (λ c, isdigit c = false) text →
  RunLengthEncoding.compress text
  = Ok (RunLengthEncoding.encode text, text, length text,
        length (RunLengthEncoding.encode text)).
Proof.
  intros Htext. unfold RunLengthEncoding.compress.
  by rewrite decode_encode.
Qed.

Lemma rle_compress_witness :
  RunLengthEncoding.compress (lit "AAAABBBCCDAA")
  = Ok (lit "4A3B2C1D2A", lit "AAAABBBCCDAA", 12%nat, 10%nat).
Proof.
  apply (rle_compress (lit "AAAABBBCCDAA")). repeat constructor.
Defined.

(** *** Decoding on its own, and the size of an encoding *)

Section rle_size.
Context `{UnicodeTables}.
Import RunLengthEncoding.

(** What is decoded already only goes in front of what comes. *)
Lemma decode_loop_prefix s decoded count :
  decode_loop s decoded count
  = decode_loop s [] count ≫= λ text, Ok (decoded ++ text).
Proof.
  revert decoded count. induction s as [|ch s IH]; intros decoded count;
    cbn [decode_loop].
  - simpl. by rewrite (right_id_L [] (++)).
  - destruct (isdigit ch); [apply IH|].
    destruct (int_of_str count) as [n|e]; [|done]. rewrite !bind_Ok.
    rewrite (IH (decoded ++ str_mul ch n)), (IH ([] ++ str_mul ch n)).
    destruct (decode_loop s [] []) as [text|e]; [|done]. simpl.
    by rewrite (assoc_L (++)).
Qed.

Lemma str_of_int_loop_length fuel n acc :
  (length (str_of_int_loop fuel n acc)
   ≤ length acc + N.to_nat (N.max 1 n))%nat.
Proof.
  revert n acc. induction fuel as [|fuel IH]; intros n acc;
    cbn [str_of_int_loop].
  - simpl. lia.
  - destruct (N.ltb_spec n 10) as [Hlt|Hge]; [simpl; lia|].
    etrans; [apply IH|]. simpl.
    assert (1 ≤ n / 10)%N by (apply N.div_le_lower_bound; lia).
    assert (n / 10 * 10 ≤ n)%N.
    { rewrite N.mul_comm. apply N.Div0.mul_div_le. }
    lia.
Qed.

Lemma str_of_int_length n :
  (1 ≤ n)%N → (length (str_of_int n) ≤ N.to_nat n)%nat.
Proof.
  intros Hn. unfold str_of_int.
  etrans; [apply str_of_int_loop_length|]. simpl. lia.
Qed.

Lemma encode_loop_length prev rest encoded count :
  (1 ≤ count)%N →
  (length (encode_loop prev rest encoded count)
   ≤ length encoded + 2 * (N.to_nat count + length rest))%nat.
Proof.
  revert prev encoded count.
  induction rest as [|c rest IH]; intros prev encoded count Hcount;
    cbn [encode_loop].
  - rewrite !length_app. pose proof (str_of_int_length count Hcount).
    simpl. lia.
  - destruct (decide (c = prev)).
    + etrans; [apply IH; lia|]. simpl. lia.
    + etrans; [apply IH; lia|]. rewrite !length_app.
      pose proof (str_of_int_length count Hcount). simpl. lia.
Qed.
End rle_size.

(** X7.  [decode] by itself: a count followed by a symbol that is not a digit
    gives that many copies of the symbol, none for the count 0, in front
    of what the rest decodes to. *)
Theorem rle_decode_run `{UnicodeTables} (n : N) (ch : char) (rest : str) :
  isdigit ch = false →
  RunLengthEncoding.decode (str_of_int n ++ ch :: rest)
  = RunLengthEncoding.decode rest ≫= λ text, Ok (str_mul ch n ++ text).
Proof.
  intros Hch. unfold RunLengthEncoding.decode.
  rewrite decode_loop_run by done. apply decode_loop_prefix.
Qed.

Lemma rle_decode_run_witness :
  RunLengthEncoding.decode (lit "12A0B3C")
  = Ok (lit "AAAAAAAAAAAACCC").
Proof.
  exact (rle_decode_run 12 65%N (lit "0B3C") eq_refl).
Defined.

(** X6.  An encoding is at most twice as long as the text: a run costs its
    symbol and the digits of its length, which are no more than the
    run has symbols. *)
Theorem rle_encode_length_bound (x : str) :
  (length (RunLengthEncoding.encode x) ≤ 2 * length x)%nat.
Proof.
  destruct x as [|c x]; [done|]. unfold RunLengthEncoding.encode.
  etrans; [apply encode_loop_length; lia|]. simpl. lia.
Qed.

(** ** Further properties of Golomb coding *)

Section golomb_more.
Import GolombCoding.
Local Open Scope Z_scope.

Lemma land_pred_neg m : m < 0 → Z.land m (m - 1) ≠ 0.
Proof.
  intros Hm. assert (Z.land m (m - 1) < 0); [|lia].
  apply Z.land_neg. lia.
Qed.

Lemma land_pred_pow2_0 k : 0 ≤ k → Z.land (2 ^ k) (2 ^ k - 1) = 0.
Proof.
  intros Hk. replace (2 ^ k - 1) with (Z.ones k)
    by (rewrite Z.ones_equiv; lia).
  rewrite Z.land_ones by done. apply Z.mod_same.
  pose proof (Z.pow_pos_nonneg 2 k). lia.
Qed.

Lemma remainder_code_total r m :
  1 ≤ m → 0 ≤ r < m →
  ∃ rc, remainder_code r m = Ok rc ∧ Forall is_bit rc.
Proof.
  intros Hm Hr.
  destruct (decide (Z.land m (m - 1) = 0)) as [Hland|Hland].
  - destruct (decide (m = 1)) as [->|].
    + assert (r = 0) as -> by lia. eexists. split; [done|].
      constructor; [by left|constructor].
    + destruct (remainder_code_pow2 r m) as (rc & ? & _ & ? & _);
        [lia|done|done|]. by exists rc.
  - destruct (remainder_code_truncated r m Hm Hr Hland)
      as (rc & ? & ? & _). by exists rc.
Qed.

(** [decode] reads a codeword and nothing of what follows it. *)
Lemma decode_codeword_app q r m rc rest :
  0 ≤ q → 1 ≤ m → 0 ≤ r < m → remainder_code r m = Ok rc →
  decode (unary_encode q ++ rc ++ rest) m = Ok (q * m + r).
Proof.
  intros Hq Hm Hr Hrc. unfold decode.
  rewrite leading_ones_unary by done.
  destruct (Z.eqb_spec (Z.land m (m - 1)) 0) as [Hland|Hland].
  - rewrite int_log2_pos by lia. simpl.
    rewrite slice_unary by (pose proof (Z.log2_nonneg m); lia).
    destruct (decide (m = 1)) as [->|Hm1].
    + simpl. do 2 f_equal. lia.
    + destruct (remainder_code_pow2 r m) as (rc' & Hrc' & Hlen & Hbits & Hv);
        [lia|done|done|].
      rewrite Hrc in Hrc'. injection Hrc' as <-.
      rewrite take_app_length' by lia.
      rewrite int2_or_0_bits, Hv; [done|done|].
      intros ->. simpl in Hlen.
      pose proof (land_pred_pow2 m ltac:(lia) Hland) as Hpow.
      rewrite <- Hlen in Hpow. simpl in Hpow. lia.
  - rewrite ceil_log2_pos by lia. rewrite bind_Ok.
    destruct (remainder_code_truncated r m Hm Hr Hland)
      as (rc' & Hrc' & Hbits & Hcase).
    rewrite Hrc in Hrc'. injection Hrc' as <-.
    destruct (not_pow2_bounds m Hm Hland) as [Hb Hbm].
    set (b := Z.log2_up m) in *. set (T := 2 ^ b - m) in *.
    assert (Hpow : 2 ^ b = 2 * 2 ^ (b - 1)).
    { rewrite <- Z.pow_succ_r by lia. f_equal. lia. }
    rewrite !length_app. pose proof (unary_length q Hq) as Hul.
    replace (q + 1 + b - 1) with (q + 1 + (b - 1)) by lia.
    rewrite !slice_unary by lia.
    destruct (decide (r < T)) as [Hlt|Hge]; destruct Hcase as [Hlen Hv].
    + destruct (Z.leb_spec (q + 1 + (b - 1))
                  (Z.of_nat (length (unary_encode q)
                             + (length rc + length rest))));
        [|lia].
      rewrite (take_app_length' rc rest (Z.to_nat (b - 1))) by lia.
      rewrite int2_or_0_bits, Hv; [|done|by intros ->; simpl in Hlen; lia].
      rewrite bind_Ok. by destruct (Z.ltb_spec r T); [|lia].
    + destruct (Z.leb_spec (q + 1 + (b - 1))
                  (Z.of_nat (length (unary_encode q)
                             + (length rc + length rest))));
        [|lia].
      assert (Hne : rc ≠ []) by (intros ->; simpl in Hlen; lia).
      pose proof (int2_loop_init rc _ Hbits Hne Hv) as Hinit.
      rewrite (take_app_le rc rest (Z.to_nat (b - 1))) by lia.
      replace (Z.to_nat (b - 1)) with (length rc - 1)%nat by lia.
      rewrite int2_or_0_bits, Hinit; cycle 1.
      { by apply Forall_take. }
      { intros E. apply (f_equal length) in E.
        rewrite length_take in E. simpl in E. lia. }
      rewrite bind_Ok.
      assert (T ≤ (r + T) / 2) by (apply Z.div_le_lower_bound; lia).
      destruct (Z.ltb_spec ((r + T) / 2) T); [lia|].
      rewrite (take_app_length' rc rest (Z.to_nat b)) by lia.
      destruct rc as [|c rc]; [done|].
      rewrite int2_bits, Hv by done. simpl. do 2 f_equal. lia.
Qed.

Lemma decode_encode_app n m rest :
  0 ≤ n → 1 ≤ m →
  ∃ codeword,
    encode n m = Ok codeword ∧ Forall is_bit codeword
    ∧ decode (codeword ++ rest) m = Ok n.
Proof.
  intros Hn Hm. unfold encode.
  destruct (Z.eqb_spec m 0) as [|_]; [lia|].
  assert (Hr : 0 ≤ n mod m < m) by (apply Z.mod_pos_bound; lia).
  assert (Hq : 0 ≤ n / m) by (apply Z.div_pos; lia).
  destruct (remainder_code_total (n mod m) m Hm Hr) as (rc & Hrc & Hbits).
  rewrite Hrc. simpl. eexists. split; [done|]. split.
  - apply Forall_app. split; [|done]. unfold unary_encode.
    apply Forall_app. split; [apply Forall_replicate; by right|].
    constructor; [by left|constructor].
  - rewrite <- (assoc_L (++)).
    rewrite (decode_codeword_app _ (n mod m)) by done.
    f_equal. rewrite Z.mul_comm. symmetry. apply Z.div_mod. lia.
Qed.

Lemma encode_length n m :
  0 ≤ n → 2 ≤ m →
  ∃ codeword,
    encode n m = Ok codeword
    ∧ Z.of_nat (length codeword)
      = n / m + 1
        + (if n mod m <? 2 ^ Z.log2_up m - m
           then Z.log2_up m - 1 else Z.log2_up m).
Proof.
  intros Hn Hm. unfold encode.
  destruct (Z.eqb_spec m 0) as [|_]; [lia|].
  assert (Hr : 0 ≤ n mod m < m) by (apply Z.mod_pos_bound; lia).
  assert (Hq : 0 ≤ n / m) by (apply Z.div_pos; lia).
  destruct (decide (Z.land m (m - 1) = 0)) as [Hland|Hland].
  - destruct (remainder_code_pow2 (n mod m) m) as (rc & Hrc & Hlen & _);
      [lia|done|done|].
    rewrite Hrc. simpl. eexists. split; [done|].
    rewrite length_app, Nat2Z.inj_add, unary_length, Hlen by done.
    pose proof (land_pred_pow2 m ltac:(lia) Hland) as Hpow.
    assert (Hup : Z.log2_up m = Z.log2 m).
    { rewrite Hpow at 1. apply Z.log2_up_pow2, Z.log2_nonneg. }
    rewrite Hup, <- Hpow.
    by destruct (Z.ltb_spec (n mod m) (m - m)); [lia|].
  - destruct (remainder_code_truncated (n mod m) m ltac:(lia) Hr Hland)
      as (rc & Hrc & _ & Hcase).
    rewrite Hrc. simpl. eexists. split; [done|].
    rewrite length_app, Nat2Z.inj_add, unary_length by done.
    destruct (decide (n mod m < 2 ^ Z.log2_up m - m)) as [Hlt|Hge];
      destruct Hcase as [Hlen _]; rewrite Hlen.
    + by destruct (Z.ltb_spec (n mod m) (2 ^ Z.log2_up m - m)); [|lia].
    + by destruct (Z.ltb_spec (n mod m) (2 ^ Z.log2_up m - m)); [lia|].
Qed.

Lemma encode_negative n m :
  n < 0 → 1 ≤ m → encode n m = encode (n mod m) m.
Proof.
  intros Hn Hm. unfold encode.
  destruct (Z.eqb_spec m 0) as [|_]; [lia|].
  assert (Hr : 0 ≤ n mod m < m) by (apply Z.mod_pos_bound; lia).
  assert (Hq : n / m < 0) by (apply Z.div_lt_upper_bound; lia).
  rewrite Z.mod_mod by lia. rewrite (Z.div_small (n mod m) m) by done.
  unfold unary_encode.
  by replace (Z.to_nat (n / m)) with (Z.to_nat 0) by lia.
Qed.
End golomb_more.

(** X9.  A parameter that is not positive is an error: [encode] raises
    [ZeroDivisionError] on [m = 0] and [ValueError] (from [math.log2]) on
    a negative [m]; [decode] raises [ValueError] on both, whatever the
    codeword. *)
Theorem golomb_bad_parameter (n m : Z) (codeword : str) :
  (m ≤ 0)%Z →
  GolombCoding.encode n m
  = Raise (if decide (m = 0)%Z then ZeroDivisionError else ValueError)
  ∧ GolombCoding.decode codeword m = Raise ValueError.
Proof.
  intros Hm. unfold GolombCoding.encode, GolombCoding.decode.
  unfold GolombCoding.remainder_code.
  destruct (decide (m = 0)%Z) as [->|Hm0]; [done|].
  destruct (Z.eqb_spec m 0) as [|_]; [done|].
  pose proof (land_pred_neg m ltac:(lia)) as Hland.
  destruct (Z.eqb_spec (Z.land m (m - 1)) 0) as [|_]; [done|].
  unfold GolombCoding.ceil_log2.
  by destruct (Z.leb_spec m 0); [|lia].
Qed.

Lemma golomb_bad_parameter_witness :
  GolombCoding.encode 5 (-3) = Raise ValueError
  ∧ GolombCoding.decode (lit "1101") (-3) = Raise ValueError.
Proof. apply (golomb_bad_parameter 5 (-3) (lit "1101")). lia. Defined.

(** X10.  The codeword of [n >= 0] for a parameter [m >= 2] is made of the
    characters ['0'] and ['1'] and has [n div m + 1] characters for the
    quotient followed by [b - 1] or [b] for the remainder, where
    [b = ceil(log2 m)]: [b - 1] for a remainder below [2^b - m], [b] for
    the others (all of them when [m] is a power of two).  The parameter
    is taken up to [2^48], where [math.log2] gives the exact logarithms
    that the model computes. *)
Theorem golomb_codeword_length (n m : Z) :
  (0 ≤ n)%Z → (2 ≤ m ≤ 2 ^ 48)%Z →
  ∃ codeword,
    GolombCoding.encode n m = Ok codeword
    ∧ Forall is_bit codeword
    ∧ Z.of_nat (length codeword)
      = (n / m + 1
         + (if n mod m <? 2 ^ Z.log2_up m - m
            then Z.log2_up m - 1 else Z.log2_up m))%Z.
Proof.
  intros Hn [Hm _].
  destruct (encode_length n m Hn Hm) as (codeword & Henc & Hlen).
  destruct (decode_encode_app n m [] Hn ltac:(lia))
    as (codeword' & Henc' & Hbits & _).
  rewrite Henc in Henc'. injection Henc' as <-. by exists codeword.
Qed.

Lemma golomb_codeword_length_witness :
  ∃ codeword,
    GolombCoding.encode 42 5 = Ok codeword
    ∧ Forall is_bit codeword
    ∧ Z.of_nat (length codeword) = 11%Z.
Proof. exact (golomb_codeword_length 42 5 ltac:(lia) ltac:(lia)). Defined.

(** X11.  A codeword delimits itself: [decode] gives back [n] from the codeword
    of [n] followed by anything, so codewords can be read off the front
    of a longer string; for a parameter up to [2^48], where [math.log2]
    gives the exact logarithms that the model computes. *)
Theorem golomb_self_delimiting (n m : Z) (rest : str) :
  (0 ≤ n)%Z → (1 ≤ m ≤ 2 ^ 48)%Z →
  ∃ codeword,
    GolombCoding.encode n m = Ok codeword
    ∧ GolombCoding.decode (codeword ++ rest) m = Ok n.
Proof.
  intros Hn [Hm _].
  destruct (decode_encode_app n m rest Hn Hm) as (codeword & ? & _ & ?).
  by exists codeword.
Qed.

Lemma golomb_self_delimiting_witness :
  ∃ codeword,
    GolombCoding.encode 10 4 = Ok codeword
    ∧ GolombCoding.decode (codeword ++ lit "0111") 4 = Ok 10%Z.
Proof. apply (golomb_self_delimiting 10 4 (lit "0111")); lia. Defined.

(** X12.  The code is prefix-free: for one parameter, the codeword of a
    number is a prefix of the codeword of no other number; for a
    parameter up to [2^48], where [math.log2] gives the exact logarithms
    that the model computes. *)
Theorem golomb_prefix_free (n n' m : Z) (codeword codeword' : str) :
  (0 ≤ n)%Z → (0 ≤ n')%Z → (1 ≤ m ≤ 2 ^ 48)%Z →
  GolombCoding.encode n m = Ok codeword →
  GolombCoding.encode n' m = Ok codeword' →
  n ≠ n' → ¬ codeword `prefix_of` codeword'.
Proof.
  intros Hn Hn' [Hm _] Henc Henc' Hne [rest ->].
  destruct (decode_encode_app n m rest Hn Hm) as (cw & Hcw & _ & Hdec).
  destruct (decode_encode_app n' m [] Hn' Hm) as (cw' & Hcw' & _ & Hdec').
  rewrite Henc in Hcw. injection Hcw as <-.
  rewrite Henc' in Hcw'. injection Hcw' as <-.
  rewrite (right_id_L [] (++)) in Hdec'. congruence.
Qed.

Lemma golomb_prefix_free_witness :
  GolombCoding.encode 2 5 = Ok (lit "010")
  ∧ GolombCoding.encode 3 5 = Ok (lit "0110")
  ∧ ¬ lit "010" `prefix_of` lit "0110".
Proof.
  split; [reflexivity|]. split; [reflexivity|].
  apply (golomb_prefix_free 2 3 5 (lit "010") (lit "0110"));
    [lia|lia|lia|reflexivity|reflexivity|lia].
Defined.

(** X13.  A negative number is not recovered: its quotient is negative, the
    unary part repeats nothing, and the codeword is that of [n mod m],
    which is what [decode] returns; for a parameter up to [2^48], where
    [math.log2] gives the exact logarithms that the model computes. *)
Theorem golomb_negative (n m : Z) :
  (n < 0)%Z → (1 ≤ m ≤ 2 ^ 48)%Z →
  GolombCoding.encode n m = GolombCoding.encode (n mod m) m
  ∧ (GolombCoding.encode n m ≫= λ codeword, GolombCoding.decode codeword m)
    = Ok (n mod m)%Z.
Proof.
  intros Hn [Hm _]. split; [by apply encode_negative|].
  rewrite encode_negative by done.
  assert (Hr : (0 ≤ n mod m)%Z) by (apply Z.mod_pos_bound; lia).
  destruct (decode_encode_golomb (n mod m) m Hr Hm) as (codeword & -> & Hdec).
  by rewrite bind_Ok.
Qed.

Lemma golomb_negative_witness :
  GolombCoding.encode (-3) 4 = Ok (lit "001")
  ∧ (GolombCoding.encode (-3) 4
       ≫= λ codeword, GolombCoding.decode codeword 4) = Ok 1%Z.
Proof.
  split; [reflexivity|].
  exact (proj2 (golomb_negative (-3) 4 ltac:(lia) ltac:(lia))).
Defined.

(** X14.  [compress] on numbers that are not negative pairs every number
    with a codeword that [decode] takes back to the number; for a
    parameter up to [2^48], where [math.log2] gives the exact logarithms
    that the model computes. *)
Theorem golomb_compress_decode (numbers : list Z) (m : Z) :
  Forall (λ n, 0 ≤ n)%Z numbers → (1 ≤ m ≤ 2 ^ 48)%Z →
  ∃ results,
    GolombCoding.compress numbers m = Ok results
    ∧ results.*1 = numbers
    ∧ Forall (λ '(n, codeword), GolombCoding.decode codeword m = Ok n) results.
Proof.
  intros Hnum [Hm _]. induction Hnum as [|n numbers Hn _ IH].
  - by exists [].
  - destruct IH as (results & Hres & Hfst & Hdec).
    destruct (decode_encode_golomb n m Hn Hm) as (codeword & Henc & Hcw).
    exists ((n, codeword) :: results). cbn [GolombCoding.compress].
    rewrite Henc, bind_Ok, Hres, bind_Ok. split; [done|]. split.
    + simpl. by f_equal.
    + by constructor.
Qed.

Lemma golomb_compress_decode_witness :
  ∃ results,
    GolombCoding.compress [10; 0; 7]%Z 4 = Ok results
    ∧ results.*1 = [10; 0; 7]%Z
    ∧ Forall (λ '(n, codeword), GolombCoding.decode codeword 4 = Ok n) results.
Proof.
  apply (golomb_compress_decode [10; 0; 7]%Z 4); [|lia].
  repeat constructor; lia.
Defined.

(** ** Further properties of Huffman coding *)

Section huffman_more.
Import HuffmanCoding.

(** *** Invariants of the items through [build_codes] *)

Section invariant.
Context (P : item → Prop).
Hypothesis P_merge : ∀ a b : item,
  P a → P b → P ((a.1 + b.1)%N, prepend 48%N a.2 ++ prepend 49%N b.2).

Lemma merge_inv heap heap' :
  Forall P heap → merge heap = Ok heap' → Forall P heap'.
Proof.
  intros Hall Hm. unfold merge in Hm.
  destruct (decide (heap = [])) as [->|Hne]; [done|].
  destruct (heappop_perm item_lt heap Hne) as (a & heap1 & Hpop & Hp1).
  rewrite Hpop, bind_Ok in Hm.
  destruct (decide (heap1 = [])) as [->|Hne1]; [done|].
  destruct (heappop_perm item_lt heap1 Hne1) as (b & heap2 & Hpop2 & Hp2).
  rewrite Hpop2, bind_Ok in Hm. injection Hm as <-.
  rewrite Hp1, Hp2 in Hall.
  apply list.Forall_cons in Hall as [Ha Hall].
  apply list.Forall_cons in Hall as [Hb Hall].
  rewrite heappush_perm. constructor; [by apply P_merge|done].
Qed.

Lemma build_codes_loop_inv fuel heap heap' :
  Forall P heap → build_codes_loop fuel heap = Ok heap' → Forall P heap'.
Proof.
  revert heap. induction fuel as [|fuel IH]; intros heap Hall Hloop;
    cbn [build_codes_loop] in Hloop.
  - by injection Hloop as <-.
  - destruct (1 <? length heap)%nat; [|by injection Hloop as <-].
    destruct (merge heap) as [heap1|e] eqn:Hm; [|done].
    rewrite bind_Ok in Hloop. apply (IH heap1); [|done].
    by apply (merge_inv heap).
Qed.

(** What [build_codes] returns on a text that is not empty, with the
    invariant [P] of the leaves carried to the root. *)
Lemma build_codes_spec_inv text :
  (∀ p, P (leaf p)) → text ≠ [] →
  ∃ root,
    build_codes (build_heap (build_frequency text)) = Ok root.2
    ∧ P root ∧ item_ok root ∧ NoDup root.2.*1
    ∧ (∀ ch, ch ∈ root.2.*1 ↔ ch ∈ text)
    ∧ length root.2 = length (build_frequency text).
Proof.
  intros Hleaf Hne.
  destruct (build_frequency_keys text [] (NoDup_nil_2)) as [Hnd Hkeys].
  fold (build_frequency text) in Hnd, Hkeys.
  destruct (build_heap_ok _ Hnd) as (Hok & Hsym & Hlen).
  assert (HP : Forall P (build_heap (build_frequency text))).
  { unfold build_heap. rewrite heapify_perm.
    apply Forall_map, list.Forall_forall. intros p _. apply Hleaf. }
  set (heap := build_heap (build_frequency text)) in *.
  assert (Hheap : heap ≠ []).
  { intros E. rewrite E in Hlen. simpl in Hlen.
    destruct text as [|c text]; [done|].
    assert (Hc : c ∈ (build_frequency (c :: text)).*1).
    { apply Hkeys. right. by left. }
    destruct (build_frequency (c :: text)); [|done].
    by apply elem_of_nil in Hc. }
  destruct (build_codes_loop_ok (length heap) heap)
    as (root & Hloop & Hroot & Hs); [lia|done|done|].
  pose proof (build_codes_loop_inv _ _ _ HP Hloop) as HProot.
  apply list.Forall_cons in HProot as [HProot _].
  exists root. unfold build_codes. rewrite Hloop, bind_Ok.
  assert (Hndr : NoDup root.2.*1).
  { rewrite Hs, Hsym. done. }
  rewrite dict_NoDup by done. split; [done|]. split; [done|].
  split; [done|]. split; [done|]. split.
  - intros ch. rewrite Hs, Hsym, Hkeys. rewrite elem_of_nil. tauto.
  - rewrite <- (length_fmap fst root.2), Hs, Hsym. by rewrite length_fmap.
Qed.
End invariant.

Lemma codes_ok_leaf p : codes_ok (leaf p).
Proof.
  destruct p as [ch weight]. split; [done|].
  constructor; [|constructor]. split; [constructor|simpl; lia].
Qed.

Lemma length_prepend bit t : length (prepend bit t) = length t.
Proof. apply length_map. Qed.

Lemma codes_ok_merge (a b : item) :
  codes_ok a → codes_ok b →
  codes_ok ((a.1 + b.1)%N, prepend 48%N a.2 ++ prepend 49%N b.2).
Proof.
  intros [Hna Ha] [Hnb Hb]. split.
  - simpl. destruct a.2; [done|]. done.
  - assert (1 ≤ length a.2)%nat by (destruct a.2; [done|simpl; lia]).
    assert (1 ≤ length b.2)%nat by (destruct b.2; [done|simpl; lia]).
    cbn [snd]. rewrite Forall_app, !list.Forall_forall.
    rewrite list.Forall_forall in Ha, Hb.
    split; intros [s c] [c' [-> Hin]]%elem_of_prepend.
    + destruct (Ha _ Hin) as [Hbits Hlen]. simpl in *.
      split; [constructor; [by left|done]|].
      rewrite length_app, !length_prepend. lia.
    + destruct (Hb _ Hin) as [Hbits Hlen]. simpl in *.
      split; [constructor; [by right|done]|].
      rewrite length_app, !length_prepend. lia.
Qed.

(** *** The frequency counter *)

Lemma occurrences_snoc ch c seen :
  occurrences ch (seen ++ [c])
  = (occurrences ch seen + if decide (c = ch) then 1 else 0)%N.
Proof.
  unfold occurrences. rewrite list.filter_app, length_app.
  rewrite filter_cons, filter_nil. case_decide; simpl; lia.
Qed.

Lemma occurrences_not_in ch text : ch ∉ text → occurrences ch text = 0%N.
Proof.
  intros Hch. unfold occurrences.
  induction text as [|c text IH]; [done|].
  rewrite not_elem_of_cons in Hch. destruct Hch as [Hne Hch].
  rewrite filter_cons. case_decide; [congruence|by apply IH].
Qed.

Lemma occurrences_in ch text : ch ∈ text → (1 ≤ occurrences ch text)%N.
Proof.
  intros Hch. unfold occurrences.
  induction text as [|c text IH]; [by apply elem_of_nil in Hch|].
  rewrite filter_cons. case_decide; [simpl; lia|].
  apply elem_of_cons in Hch as [->|Hch]; [done|by apply IH].
Qed.

Lemma count_char_counts ch (freq : Counter) seen :
  NoDup freq.*1 → (ch ∉ freq.*1 → ch ∉ seen) →
  Forall (λ p, p.1 ∈ seen ∧ p.2 = occurrences p.1 seen) freq →
  Forall (λ p, p.1 ∈ seen ++ [ch] ∧ p.2 = occurrences p.1 (seen ++ [ch]))
    (count_char ch freq).
Proof.
  intros Hnd Hnew Hall.
  induction Hall as [|[c n] freq [Hc Hn] Hall IH]; cbn [count_char].
  - constructor; [|constructor]. simpl.
    split; [apply elem_of_app; right; by left|].
    rewrite occurrences_snoc, decide_True by done.
    rewrite occurrences_not_in; [done|]. apply Hnew. apply not_elem_of_nil.
  - simpl in Hc, Hn. rewrite fmap_cons in Hnd.
    apply list.NoDup_cons in Hnd as [Hnotin Hnd]. simpl in Hnotin.
    destruct (decide (c = ch)) as [->|Hne].
    + constructor.
      * simpl. split; [apply elem_of_app; by left|].
        rewrite occurrences_snoc, decide_True by done. by rewrite Hn.
      * rewrite list.Forall_forall in Hall. apply list.Forall_forall.
        intros [c' n'] Hin. destruct (Hall _ Hin) as [Hc' Hn']. simpl in *.
        split; [apply elem_of_app; by left|].
        rewrite occurrences_snoc, decide_False; [by rewrite N.add_0_r|].
        intros <-. apply Hnotin. apply list_elem_of_fmap. by exists (ch, n').
    + constructor.
      * simpl. split; [apply elem_of_app; by left|].
        rewrite occurrences_snoc, decide_False by done.
        by rewrite N.add_0_r.
      * apply IH; [done|]. intros Hch. apply Hnew. rewrite fmap_cons.
        simpl. rewrite not_elem_of_cons. split; [done|done].
Qed.

Lemma build_frequency_counts text (freq : Counter) seen :
  NoDup freq.*1 → (∀ c, c ∈ seen → c ∈ freq.*1) →
  Forall (λ p, p.1 ∈ seen ∧ p.2 = occurrences p.1 seen) freq →
  Forall (λ p, p.1 ∈ seen ++ text ∧ p.2 = occurrences p.1 (seen ++ text))
    (foldl (λ freq ch, count_char ch freq) freq text).
Proof.
  revert freq seen.
  induction text as [|ch text IH]; intros freq seen Hnd Hcover Hall.
  - simpl. by rewrite (right_id_L [] (++)).
  - cbn [foldl]. rewrite (cons_middle ch seen text), (assoc_L (++)).
    apply IH.
    + rewrite count_char_keys. case_decide; [done|].
      apply list.NoDup_app. split; [done|]. split.
      * intros x Hx ->%list_elem_of_singleton. done.
      * apply NoDup_singleton.
    + intros c. rewrite count_char_keys, elem_of_app, list_elem_of_singleton.
      case_decide as Hin.
      * intros [?| ->]; [by apply Hcover|done].
      * rewrite elem_of_app, list_elem_of_singleton.
        intros [?| ->]; [left; by apply Hcover|by right].
    + apply count_char_counts; [done| |done].
      intros Hch Hin. by apply Hch, Hcover.
Qed.

(** *** Encoding with a table *)

Lemma dict_get_in (table : codes) ch :
  ch ∈ table.*1 → ∃ code, dict_get table ch = Ok code ∧ (ch, code) ∈ table.
Proof.
  induction table as [|[k v] table IH]; simpl; intros Hin.
  - by apply elem_of_nil in Hin.
  - case_decide as Hk.
    + subst k. exists v. split; [done|]. by left.
    + apply elem_of_cons in Hin as [?|Hin]; [congruence|].
      destruct (IH Hin) as (code & ? & ?). exists code.
      split; [done|]. by right.
Qed.

Lemma dict_get_not_in (table : codes) ch :
  ch ∉ table.*1 → dict_get table ch = Raise KeyError.
Proof.
  induction table as [|[k v] table IH]; simpl; intros Hin; [done|].
  rewrite not_elem_of_cons in Hin. destruct Hin as [Hne Hin].
  case_decide; [congruence|by apply IH].
Qed.

Lemma huffman_encode_raises text (table : codes) :
  match huffman_encode text table with
  | Ok _ => ∀ ch, ch ∈ text → ch ∈ table.*1
  | Raise e => e = KeyError ∧ ∃ ch, ch ∈ text ∧ ch ∉ table.*1
  end.
Proof.
  induction text as [|c text IH]; cbn [huffman_encode].
  - intros ch Hch. by apply elem_of_nil in Hch.
  - destruct (decide (c ∈ table.*1)) as [Hc|Hc].
    + destruct (dict_get_in table c Hc) as (code & -> & _). rewrite bind_Ok.
      destruct (huffman_encode text table) as [rest|e]; simpl.
      * intros ch [->|Hch]%elem_of_cons; [done|by apply IH].
      * destruct IH as (-> & ch & Hch & Hnot). split; [done|].
        exists ch. split; [by right|done].
    + rewrite dict_get_not_in by done. simpl. split; [done|].
      exists c. split; [by left|done].
Qed.

Lemma huffman_encode_bits text (table : codes) :
  Forall (λ p, Forall is_bit p.2) table →
  (∀ ch, ch ∈ text → ch ∈ table.*1) →
  ∃ encoded, huffman_encode text table = Ok encoded ∧ Forall is_bit encoded.
Proof.
  intros Hbits. induction text as [|c text IH]; intros Hcover;
    cbn [huffman_encode].
  - by exists [].
  - destruct (dict_get_in table c) as (code & -> & Hin).
    { apply Hcover. by left. }
    destruct IH as (rest & -> & Hrest).
    { intros ch Hch. apply Hcover. by right. }
    rewrite !bind_Ok. eexists. split; [done|].
    apply Forall_app. split; [|done].
    rewrite list.Forall_forall in Hbits. apply (Hbits _ Hin).
Qed.
End huffman_more.

(** *** What a user of Huffman coding can rely on *)

(** X15.  [build_frequency] counts: the counter has one entry for every
    distinct symbol of the text, holding the number of its
    occurrences. *)
Theorem huffman_frequency_counts (text : str) :
  NoDup (HuffmanCoding.build_frequency text).*1
  ∧ ∀ ch n,
      (ch, n) ∈ HuffmanCoding.build_frequency text
      ↔ ch ∈ text ∧ n = occurrences ch text.
Proof.
  destruct (build_frequency_keys text [] (NoDup_nil_2)) as [Hnd Hkeys].
  fold (HuffmanCoding.build_frequency text) in Hnd, Hkeys.
  split; [done|].
  assert (Hall : Forall (λ p, p.1 ∈ text ∧ p.2 = occurrences p.1 text)
                   (HuffmanCoding.build_frequency text)).
  { apply (build_frequency_counts text [] []); [constructor| |constructor].
    intros c Hc. by apply elem_of_nil in Hc. }
  rewrite list.Forall_forall in Hall. intros ch n. split.
  - intros Hin. apply (Hall _ Hin).
  - intros [Hch ->].
    assert (Hkey : ch ∈ (HuffmanCoding.build_frequency text).*1)
      by (apply Hkeys; by right).
    apply list_elem_of_fmap in Hkey as ([c n] & -> & Hin).
    destruct (Hall _ Hin) as [_ Hn]. simpl in *. by rewrite <- Hn.
Qed.

(** X16.  The first item of the heap that [build_heap] returns is the leaf of
    a symbol of least frequency. *)
Theorem huffman_heap_root (freq : list (char * N)) :
  freq ≠ [] →
  ∃ ch w rest,
    HuffmanCoding.build_heap freq = (w, [(ch, [])]) :: rest
    ∧ (ch, w) ∈ freq
    ∧ ∀ c n, (c, n) ∈ freq → (w ≤ n)%N.
Proof.
  intros Hne.
  assert (Hp : HuffmanCoding.build_heap freq ≡ₚ map leaf freq)
    by apply heapify_perm.
  assert (Hheap : heap_from HuffmanCoding.item_lt 0
                    (HuffmanCoding.build_heap freq)).
  { apply heapify_heap; [apply item_lt_le|apply item_le_trans]. }
  destruct (HuffmanCoding.build_heap freq) as [|root rest] eqn:Hbuild.
  { apply Permutation_length in Hp. rewrite length_map in Hp.
    destruct freq; [done|simpl in Hp; lia]. }
  assert (Hroot : root ∈ map leaf freq) by (rewrite <- Hp; by left).
  apply list_elem_of_fmap in Hroot as ([ch w] & -> & Hin).
  exists ch, w, rest. split; [done|]. split; [done|].
  intros c n Hcn.
  assert (Hle : le HuffmanCoding.item_lt (leaf (ch, w)) (leaf (c, n))).
  { apply (heap_root_least HuffmanCoding.item_lt item_lt_le item_le_trans
             (leaf (ch, w) :: rest)); [done|done|].
    rewrite Hp. apply list_elem_of_fmap. by exists (c, n). }
  unfold le, HuffmanCoding.item_lt in Hle. simpl in Hle.
  destruct (N.eqb_spec n w); [lia|].
  by apply N.ltb_ge in Hle.
Qed.

Lemma huffman_heap_root_witness :
  ∃ ch w rest,
    HuffmanCoding.build_heap [(97, 5); (98, 2); (114, 2); (99, 1); (100, 1)]%N
    = (w, [(ch, [])]) :: rest
    ∧ (ch, w) ∈ [(97, 5); (98, 2); (114, 2); (99, 1); (100, 1)]%N
    ∧ ∀ c n, (c, n) ∈ [(97, 5); (98, 2); (114, 2); (99, 1); (100, 1)]%N
             → (w ≤ n)%N.
Proof.
  apply (huffman_heap_root [(97, 5); (98, 2); (114, 2); (99, 1); (100, 1)]%N).
  discriminate.
Defined.

(** X17.  The table of a text that is not empty is complete: it has exactly
    one code for every distinct symbol of the text, and the sum over its
    codes of [2^(-length)] is exactly one. *)
Theorem huffman_table_complete (text : str) :
  text ≠ [] →
  ∃ table,
    HuffmanCoding.build_codes
      (HuffmanCoding.build_heap (HuffmanCoding.build_frequency text))
    = Ok table
    ∧ NoDup table.*1
    ∧ (∀ ch, ch ∈ table.*1 ↔ ch ∈ text)
    ∧ (kraft_sum table == 1)%Q.
Proof.
  intros Hne.
  destruct (build_codes_spec text Hne) as (root & Hbuild & Hok & Hnd & Hkeys).
  exists root.2. split; [done|]. split; [done|]. split; [done|].
  apply (ok_kraft _ Hok).
Qed.

Lemma huffman_table_complete_witness :
  ∃ table,
    HuffmanCoding.build_codes
      (HuffmanCoding.build_heap
         (HuffmanCoding.build_frequency (lit "abracadabra")))
    = Ok table
    ∧ NoDup table.*1
    ∧ (∀ ch, ch ∈ table.*1 ↔ ch ∈ lit "abracadabra")
    ∧ (kraft_sum table == 1)%Q.
Proof. apply (huffman_table_complete (lit "abracadabra")). discriminate. Defined.

(** X18.  Every code of the table is made of the characters ['0'] and ['1'],
    and is shorter than the text has distinct symbols. *)
Theorem huffman_code_length_bound (text : str) :
  text ≠ [] →
  ∃ table,
    HuffmanCoding.build_codes
      (HuffmanCoding.build_heap (HuffmanCoding.build_frequency text))
    = Ok table
    ∧ length table = length (HuffmanCoding.build_frequency text)
    ∧ Forall (λ p, Forall is_bit p.2 ∧ (length p.2 < length table)%nat) table.
Proof.
  intros Hne.
  destruct (build_codes_spec_inv codes_ok codes_ok_merge text codes_ok_leaf Hne)
    as (root & Hbuild & [_ Hcodes] & _ & _ & _ & Hlen).
  by exists root.2.
Qed.

Lemma huffman_code_length_bound_witness :
  ∃ table,
    HuffmanCoding.build_codes
      (HuffmanCoding.build_heap
         (HuffmanCoding.build_frequency (lit "abracadabra")))
    = Ok table
    ∧ length table = 5%nat
    ∧ Forall (λ p, Forall is_bit p.2 ∧ (length p.2 < length table)%nat) table.
Proof.
  exact (huffman_code_length_bound (lit "abracadabra") ltac:(discriminate)).
Defined.

(** X19.  [compress] never fails on a text that is not empty, and the string
    it returns is made of the characters ['0'] and ['1']. *)
Theorem huffman_compress_bits (text : str) :
  text ≠ [] →
  ∃ encoded table,
    HuffmanCoding.compress text
    = Ok (encoded, table, HuffmanCoding.build_frequency text)
    ∧ Forall is_bit encoded.
Proof.
  intros Hne.
  destruct (build_codes_spec_inv codes_ok codes_ok_merge text codes_ok_leaf Hne)
    as (root & Hbuild & [_ Hcodes] & _ & _ & Hkeys & _).
  destruct (huffman_encode_bits text root.2) as (encoded & Henc & Hbits).
  { eapply list.Forall_impl; [exact Hcodes|]. by intros p [? _]. }
  { intros ch Hch. by apply Hkeys. }
  exists encoded, root.2. unfold HuffmanCoding.compress.
  by rewrite Hbuild, bind_Ok, Henc, bind_Ok.
Qed.

Lemma huffman_compress_bits_witness :
  ∃ encoded table,
    HuffmanCoding.compress (lit "abracadabra")
    = Ok (encoded, table, HuffmanCoding.build_frequency (lit "abracadabra"))
    ∧ Forall is_bit encoded.
Proof. apply (huffman_compress_bits (lit "abracadabra")). discriminate. Defined.

(** X20.  [huffman_encode] raises [KeyError], and nothing else, exactly when a
    symbol of the text has no code in the table. *)
Theorem huffman_encode_key_error (text : str) (table : list (char * str)) :
  (HuffmanCoding.huffman_encode text table = Raise KeyError
   ↔ ∃ ch, ch ∈ text ∧ ch ∉ table.*1)
  ∧ ∀ e, HuffmanCoding.huffman_encode text table = Raise e → e = KeyError.
Proof.
  pose proof (huffman_encode_raises text table) as H.
  destruct (HuffmanCoding.huffman_encode text table) as [encoded|e].
  - split; [|done]. split; [done|]. intros (ch & Hch & Hnot).
    by destruct Hnot; apply H.
  - destruct H as [-> Hex]. split; [done|]. by intros e [= <-].
Qed.

(** X21.  [decode] undoes [huffman_encode] for any table, built by
    [build_codes] or not, that has one code per symbol, none of them
    empty and none a prefix of another, and a code for every symbol of
    the text. *)
Theorem huffman_decode_encode_table (table : list (char * str)) (text : str) :
  decodable table → (∀ ch, ch ∈ text → ch ∈ table.*1) →
  ∃ encoded,
    HuffmanCoding.huffman_encode text table = Ok encoded
    ∧ HuffmanCoding.decode encoded table = Ok text.
Proof.
  intros Hdec Hcover.
  destruct (decode_encode_text table text [] Hdec Hcover) as (encoded & ? & Hloop).
  exists encoded. split; [done|]. unfold HuffmanCoding.decode.
  by rewrite Hloop.
Qed.

Lemma huffman_decode_encode_table_witness :
  ∃ encoded,
    HuffmanCoding.huffman_encode (lit "abcab")
      [(97%N, lit "0"); (98%N, lit "10"); (99%N, lit "11")] = Ok encoded
    ∧ HuffmanCoding.decode encoded
        [(97%N, lit "0"); (98%N, lit "10"); (99%N, lit "11")]
      = Ok (lit "abcab").
Proof.
  apply (huffman_decode_encode_table
           [(97%N, lit "0"); (98%N, lit "10"); (99%N, lit "11")] (lit "abcab")).
  - split.
    + apply (bool_decide_unpack _). by vm_compute.
    + intros s1 c1 s2 c2 H1 H2 Hne [k Hk].
      repeat (apply elem_of_cons in H1 as [H1|H1]; [injection H1 as -> ->|]);
        [..|by apply elem_of_nil in H1];
        (repeat (apply elem_of_cons in H2 as [H2|H2];
                 [injection H2 as -> ->|]);
         [..|by apply elem_of_nil in H2]); done.
    + repeat constructor; done.
  - intros ch Hch. simpl.
    repeat (apply elem_of_cons in Hch as [->|Hch];
            [apply (bool_decide_unpack _); by vm_compute|]).
    by apply elem_of_nil in Hch.
Defined.

Lemma huffman_round_trip_two_symbols_witness :
  (HuffmanCoding.compress (lit "abracadabra") ≫= λ '(encoded, table, _),
     HuffmanCoding.decode encoded table) = Ok (lit "abracadabra").
Proof.
  apply (huffman_round_trip_two_symbols (lit "abracadabra") 97%N 98%N);
    [by left|right; by left|done].
Defined.

(** ** Further properties of LZW *)

Section lzw_more.
Import LZWCoding.
Local Open Scope Z_scope.

(** *** The decoder on any list of codes *)

Lemma table_inv_init : table_inv (decode_init 256) 256.
Proof.
  split; [done|]. split.
  - intros k. rewrite decode_init_spec. case_decide as Hk.
    + split; [done|by eexists].
    + split; [by intros [? ?]|done].
  - intros k s. rewrite decode_init_spec. case_decide; [|done].
    by intros [= <-].
Qed.

Lemma table_inv_insert T n s :
  table_inv T n → s ≠ [] → table_inv (<[n := s]> T) (n + 1).
Proof.
  intros (Hn & Hdom & Hne) Hs. split; [lia|]. split.
  - intros k. rewrite lookup_insert_is_Some, Hdom. lia.
  - intros k s' [[_ <-]|[_ Hk]]%lookup_insert_Some; [done|by eapply Hne].
Qed.

(** One round of the loop on a code that is known or is the next one. *)
Lemma decode_loop_step c T n prev :
  table_inv T n → prev ≠ [] → 0 ≤ c ≤ n →
  ∃ cur, cur ≠ []
    ∧ ∀ cs decoded,
        decode_loop (c :: cs) T n prev decoded
        = decode_loop cs (<[n := prev ++ take 1 cur]> T) (n + 1) cur
            (decoded ++ cur).
Proof.
  intros (Hn & Hdom & Hne) Hprev Hc.
  destruct (T !! c) as [s|] eqn:E.
  - assert (Hs : s ≠ []) by (by eapply Hne).
    exists s. split; [done|]. intros cs decoded. cbn [decode_loop].
    rewrite E, bind_Ok. by destruct s.
  - assert (c = n) as ->.
    { destruct (decide (c = n)); [done|].
      assert (Hsome : is_Some (T !! c)) by (apply Hdom; lia).
      rewrite E in Hsome. by destruct Hsome. }
    destruct prev as [|p0 prev]; [done|].
    exists ((p0 :: prev) ++ [p0]). split; [done|].
    intros cs decoded. cbn [decode_loop].
    rewrite E, decide_True by done. done.
Qed.

Lemma decode_loop_accepts cs T n prev decoded :
  table_inv T n → prev ≠ [] →
  (∀ i c, cs !! i = Some c → 0 ≤ c ≤ n + Z.of_nat i) →
  ∃ text, decode_loop cs T n prev decoded = Ok text.
Proof.
  revert T n prev decoded.
  induction cs as [|c cs IH]; intros T n prev decoded HT Hprev Hvalid.
  - by exists decoded.
  - destruct (decode_loop_step c T n prev HT Hprev) as (cur & Hcur & ->).
    { specialize (Hvalid 0%nat c eq_refl). lia. }
    apply IH; [|done|].
    + apply table_inv_insert; [done|]. by destruct prev.
    + intros i c' Hi. specialize (Hvalid (S i) c' Hi). lia.
Qed.

Lemma decode_loop_rejects cs T n prev decoded i c :
  table_inv T n → prev ≠ [] →
  cs !! i = Some c → ¬ (0 ≤ c ≤ n + Z.of_nat i) →
  (∀ j c', (j < i)%nat → cs !! j = Some c' → 0 ≤ c' ≤ n + Z.of_nat j) →
  decode_loop cs T n prev decoded = Raise ValueError.
Proof.
  revert T n prev decoded i.
  induction cs as [|c0 cs IH]; intros T n prev decoded i HT Hprev Hi Hbad Hpre;
    [done|].
  destruct i as [|i].
  - injection Hi as ->. destruct HT as (Hn & Hdom & _). cbn [decode_loop].
    destruct (T !! c) as [s|] eqn:E.
    + assert (0 ≤ c < n) by (apply Hdom; by eexists). simpl in Hbad. lia.
    + rewrite decide_False; [done|]. simpl in Hbad. lia.
  - destruct (decode_loop_step c0 T n prev HT Hprev) as (cur & Hcur & ->).
    { specialize (Hpre 0%nat c0 ltac:(lia) eq_refl). lia. }
    apply (IH _ _ _ _ i); [|done|done|lia|].
    + apply table_inv_insert; [done|]. by destruct prev.
    + intros j c' Hj Hc'. specialize (Hpre (S j) c' ltac:(lia) Hc'). lia.
Qed.

(** *** The codes of the encoder *)

Lemma encode_phrases text :
  Forall (λ ch, (ch < 256)%N) text →
  ∃ cs ps D',
    encode text = Ok (cs, D')
    ∧ phrases (decode_init 256) 256 cs ps ∧ concat ps = text.
Proof.
  intros Htext. rewrite encode_finish.
  destruct text as [|ch text].
  { exists [], [], encode_init. split; [done|]. split; [constructor|done]. }
  apply list.Forall_cons in Htext as [Hch Htext].
  cbn [encode_loop app]. destruct (init_single ch Hch) as [c Hc].
  rewrite Hc.
  destruct (encode_loop_spec text encode_init (decode_init 256) 256 [ch] [])
    as (cs & ps & D' & Henc & Hph & Hcat).
  - apply init_inverse.
  - apply init_fresh.
  - done.
  - by exists c.
  - intros ch' Hin. apply init_single.
    rewrite list.Forall_forall in Htext. by apply Htext.
  - exists cs, ps, D'. done.
Qed.

Lemma phrases_valid E n cs ps :
  phrases E n cs ps → table_inv E n →
  ∀ i c, cs !! i = Some c → 0 ≤ c < n + Z.of_nat i.
Proof.
  induction 1 as [E n|E n c p Hc Hp|E n c p cs p' ps Hc Hp Hrest IH];
    intros HE i c' Hi.
  - done.
  - destruct i; [|done]. injection Hi as <-.
    destruct HE as (_ & Hdom & _).
    assert (0 ≤ c < n) by (apply Hdom; by eexists). simpl. lia.
  - destruct i as [|i].
    + injection Hi as <-. destruct HE as (_ & Hdom & _).
      assert (0 ≤ c < n) by (apply Hdom; by eexists). simpl. lia.
    + assert (0 ≤ c' < n + 1 + Z.of_nat i); [|lia].
      apply IH; [|done]. apply table_inv_insert; [done|]. by destruct p.
Qed.

Lemma phrases_length E n cs ps :
  phrases E n cs ps → (length cs ≤ length (concat ps))%nat.
Proof.
  induction 1 as [E n|E n c p Hc Hp|E n c p cs p' ps Hc Hp Hrest IH].
  - done.
  - simpl. destruct p; [done|]. simpl. lia.
  - change (concat (p :: p' :: ps)) with (p ++ concat (p' :: ps)).
    rewrite length_app. destruct p; [done|]. cbn [length]. lia.
Qed.

(** *** Characters that no initial code stands for *)

Lemma dict_inv_init : dict_inv encode_init.
Proof.
  split; [|apply init_single].
  intros s c [[Hc ->]|Hempty]%encode_init_lookup;
    [|by rewrite lookup_empty in Hempty].
  apply elem_of_seqZ in Hc. split; [done|].
  constructor; [lia|constructor].
Qed.

Lemma dict_inv_insert D s n :
  dict_inv D → s ≠ [] → Forall (λ ch, (ch < 256)%N) s →
  dict_inv (<[s := n]> D).
Proof.
  intros [Hkeys Hsingle] Hs Hall. split.
  - intros s' c [[<- _]|[_ Hin]]%lookup_insert_Some; [done|by eapply Hkeys].
  - intros ch Hch. rewrite lookup_insert_is_Some.
    destruct (decide (s = [ch])); [by left|right]. split; [done|].
    by apply Hsingle.
Qed.

(** With a current string that the dictionary lacks, alone and
    extended, the encoder can only fail. *)
Lemma encode_loop_stuck (post : str) (D : gmap (list N) Z) (n : Z) (c : N)
    (result : list Z) :
  D !! [c] = None → (∀ d, D !! [c; d] = None) →
  encode_loop post D n [c] result ≫= finish = Raise KeyError.
Proof.
  intros Hc Hcd. destruct post as [|d post]; cbn [encode_loop].
  - simpl. unfold getitem. by rewrite Hc.
  - change ([c] ++ [d]) with [c; d]. rewrite Hcd.
    unfold getitem. by rewrite Hc.
Qed.

Lemma encode_loop_key_error pre c post D n w result :
  dict_inv D → Forall (λ ch, (ch < 256)%N) pre → (256 ≤ c)%N →
  Forall (λ ch, (ch < 256)%N) w → (w ≠ [] → is_Some (D !! w)) →
  encode_loop (pre ++ c :: post) D n w result ≫= finish = Raise KeyError.
Proof.
  intros HD Hpre Hc. revert D n w result HD.
  induction Hpre as [|x pre Hx _ IH]; intros D n w result HD Hw HwD;
    cbn [app encode_loop].
  - assert (Hnot : ∀ s t k, D !! (s ++ c :: t) = Some k → False).
    { intros s t k Hk. destruct HD as [Hkeys _].
      destruct (Hkeys _ _ Hk) as [_ Hall].
      apply Forall_app in Hall as [_ Hall].
      apply list.Forall_cons in Hall as [? _]. lia. }
    destruct (D !! (w ++ [c])) as [k|] eqn:E; [by destruct (Hnot w [] k)|].
    destruct w as [|w0 w].
    { unfold getitem. destruct (D !! []) as [k|] eqn:E0; [|done].
      destruct HD as [Hkeys _]. by destruct (Hkeys _ _ E0). }
    destruct (HwD ltac:(done)) as [code Hcode].
    unfold getitem at 1. rewrite Hcode, bind_Ok.
    apply encode_loop_stuck.
    + rewrite lookup_insert_ne by (by destruct w).
      destruct (D !! [c]) as [k|] eqn:E1; [|done].
      by destruct (Hnot [] [] k).
    + intros d. rewrite lookup_insert_ne.
      * destruct (D !! [c; d]) as [k|] eqn:E1; [|done].
        by destruct (Hnot [] [d] k).
      * intros Heq. destruct w as [|w1 w]; [|by destruct w].
        injection Heq as -> _.
        apply list.Forall_cons in Hw as [? _]. lia.
  - destruct (D !! (w ++ [x])) as [k|] eqn:E.
    + apply IH; [done| |by eexists].
      apply Forall_app. split; [done|]. by constructor.
    + destruct w as [|w0 w].
      { destruct HD as [_ Hsingle]. destruct (Hsingle x Hx) as [k Hk].
        simpl in E. congruence. }
      destruct (HwD ltac:(done)) as [code Hcode].
      unfold getitem at 1. rewrite Hcode, bind_Ok.
      apply IH.
      * apply dict_inv_insert; [done|done|].
        apply Forall_app. split; [done|]. by constructor.
      * by constructor.
      * intros _. rewrite lookup_insert_is_Some. destruct HD as [_ Hsingle].
        destruct (decide ((w0 :: w) ++ [x] = [x])); [by left|right].
        split; [done|]. by apply Hsingle.
Qed.

Lemma first_above text :
  ¬ Forall (λ ch, (ch < 256)%N) text →
  ∃ pre c post,
    text = pre ++ c :: post ∧ Forall (λ ch, (ch < 256)%N) pre ∧ (256 ≤ c)%N.
Proof.
  induction text as [|x text IH]; intros Hnot.
  - destruct Hnot. constructor.
  - destruct (decide (x < 256)%N) as [Hx|Hx].
    + destruct IH as (pre & c & post & -> & Hpre & Hc).
      { intros Hall. apply Hnot. by constructor. }
      exists (x :: pre), c, post. split; [done|]. split; [by constructor|done].
    + exists [], x, text. split; [done|]. split; [constructor|lia].
Qed.
End lzw_more.

(** X23.  [decode] accepts every list of codes in which the code at position
    [i] is one of the 256 initial codes or of the [i] codes created so
    far: on such a list it raises nothing. *)
Theorem lzw_decode_accepts (codes : list Z) :
  valid_codes codes → ∃ text, LZWCoding.decode codes = Ok text.
Proof.
  intros Hvalid. unfold LZWCoding.decode, LZWCoding.decode_from.
  destruct codes as [|c0 codes]; [by exists []|].
  pose proof (Hvalid 0%nat c0 eq_refl) as Hc0. simpl in Hc0.
  unfold LZWCoding.getitem. rewrite decode_init_spec.
  rewrite decide_True by lia. rewrite bind_Ok.
  apply decode_loop_accepts; [apply table_inv_init|done|].
  intros i c Hi. specialize (Hvalid (S i) c Hi). lia.
Qed.

Lemma lzw_decode_accepts_witness :
  ∃ text, LZWCoding.decode [97; 256; 257; 98; 259]%Z = Ok text.
Proof.
  apply (lzw_decode_accepts [97; 256; 257; 98; 259]%Z).
  intros [|[|[|[|[|i]]]]] c Hc; simpl in Hc; [injection Hc as <-; lia..|done].
Defined.

(** X24.  [decode] rejects every other list: at the first code that is
    neither an initial code nor one created so far it raises [KeyError]
    when this is the first code of the list, [ValueError] when it is a
    later one. *)
Theorem lzw_decode_rejects (codes : list Z) (i : nat) (c : Z) :
  codes !! i = Some c → ¬ (0 ≤ c < 256 + Z.of_nat i)%Z →
  valid_codes (take i codes) →
  LZWCoding.decode codes
  = Raise (if decide (i = 0%nat) then KeyError else ValueError).
Proof.
  intros Hi Hbad Hpre. unfold LZWCoding.decode, LZWCoding.decode_from.
  destruct codes as [|c0 codes]; [done|].
  unfold LZWCoding.getitem. rewrite decode_init_spec.
  destruct i as [|i].
  - injection Hi as ->. simpl in Hbad. by rewrite decide_False by lia.
  - pose proof (Hpre 0%nat c0 eq_refl) as Hc0. simpl in Hc0.
    rewrite decide_True by lia. rewrite bind_Ok. simpl in Hi.
    rewrite decide_False by done.
    apply (decode_loop_rejects _ _ _ _ _ i c);
      [apply table_inv_init|done|done|lia|].
    intros j c' Hj Hc'.
    assert (Hlook : take (S i) (c0 :: codes) !! S j = Some c').
    { rewrite lookup_take_lt by lia. done. }
    specialize (Hpre (S j) c' Hlook). lia.
Qed.

Lemma lzw_decode_rejects_witness :
  LZWCoding.decode [97; 256; 300; 98]%Z = Raise ValueError.
Proof.
  apply (lzw_decode_rejects [97; 256; 300; 98]%Z 2 300%Z);
    [reflexivity|lia|].
  intros [|[|i]] c Hc; simpl in Hc; [injection Hc as <-; lia..|done].
Defined.

(** X25.  The codes of [encode] are codes that [decode] accepts: the code at
    position [i] is below [256 + i]. *)
Theorem lzw_codes_valid (text : str) :
  Forall (λ ch, (ch < 256)%N) text →
  ∃ codes dictionary,
    LZWCoding.encode text = Ok (codes, dictionary) ∧ valid_codes codes.
Proof.
  intros Htext.
  destruct (encode_phrases text Htext) as (cs & ps & D' & Henc & Hph & _).
  exists cs, D'. split; [done|].
  intros i c Hi. by apply (phrases_valid _ _ _ _ Hph table_inv_init).
Qed.

Lemma lzw_codes_valid_witness :
  ∃ codes dictionary,
    LZWCoding.encode (lit "TOBEORNOTTOBEORTOBEORNOT") = Ok (codes, dictionary)
    ∧ valid_codes codes.
Proof.
  apply (lzw_codes_valid (lit "TOBEORNOTTOBEORTOBEORNOT")).
  repeat constructor.
Defined.

(** X26.  [compress] on a text of characters below 256 returns the codes and
    the dictionary of [encode] with the text itself as the decoded text,
    and there are no more codes than the text has characters. *)
Theorem lzw_compress (text : str) :
  Forall (λ ch, (ch < 256)%N) text →
  ∃ codes dictionary,
    LZWCoding.encode text = Ok (codes, dictionary)
    ∧ LZWCoding.compress text = Ok (codes, dictionary, text)
    ∧ (length codes ≤ length text)%nat.
Proof.
  intros Htext.
  destruct (encode_phrases text Htext) as (cs & ps & D' & Henc & Hph & Hcat).
  pose proof (decode_encode_lzw text Htext) as Hdec.
  exists cs, D'. split; [done|]. split.
  - rewrite Henc in Hdec. change (LZWCoding.decode cs = Ok text) in Hdec.
    unfold LZWCoding.compress. rewrite Henc.
    rewrite bind_Ok. by rewrite Hdec.
  - rewrite <- Hcat. by apply (phrases_length _ _ _ _ Hph).
Qed.

Lemma lzw_compress_witness :
  ∃ codes dictionary,
    LZWCoding.encode (lit "TOBEORNOTTOBEORTOBEORNOT") = Ok (codes, dictionary)
    ∧ LZWCoding.compress (lit "TOBEORNOTTOBEORTOBEORNOT")
      = Ok (codes, dictionary, lit "TOBEORNOTTOBEORTOBEORNOT")
    ∧ (length codes ≤ 24)%nat.
Proof.
  apply (lzw_compress (lit "TOBEORNOTTOBEORTOBEORNOT")).
  repeat constructor.
Defined.

(** X27.  A character that [chr(0)] to [chr(255)] do not cover makes [encode]
    raise [KeyError], wherever it is in the text. *)
Theorem lzw_encode_key_error (text : str) :
  ¬ Forall (λ ch, (ch < 256)%N) text →
  LZWCoding.encode text = Raise KeyError.
Proof.
  intros Hnot.
  destruct (first_above text Hnot) as (pre & c & post & -> & Hpre & Hc).
  rewrite encode_finish.
  apply encode_loop_key_error; [apply dict_inv_init|done|done|constructor|done].
Qed.

Lemma lzw_encode_key_error_witness :
  LZWCoding.encode [99; 97; 102; 233; 8364; 33]%N = Raise KeyError.
Proof.
  apply (lzw_encode_key_error [99; 97; 102; 233; 8364; 33]%N).
  intros Hall. rewrite list.Forall_forall in Hall.
  assert (H : (8364 < 256)%N) by (apply Hall; repeat constructor).
  lia.
Defined.
